(** * Maximal-length sequence generator (liquid-dsp, src/sequence/src/msequence.c)

    A shallow embedding of the linear-feedback shift register of
    [msequence.c].  C's [unsigned int] is a 32-bit integer: values are
    carried as [Z] and every operation that can leave the 32-bit range
    has its wrap-around written out with [uint]. *)

From Stdlib Require Import String Ascii DecimalString ZArith List Bool Lia.
Import ListNotations.
Local Open Scope Z_scope.

(** ** Unsigned 32-bit arithmetic *)

Definition UINT_BITS : Z := 32.

Definition uint (x : Z) : Z := x mod 2 ^ UINT_BITS.

Definition is_uint (x : Z) : Prop := 0 <= x < 2 ^ UINT_BITS.

(** ** External collaborators *)

(** XOR-reduction of the binary digits of a positive number. *)
Fixpoint parity_pos (p : positive) : bool :=
  match p with
  | xH => true
  | xO q => parity_pos q
  | xI q => negb (parity_pos q)
  end.

Definition parity (t : Z) : Z :=
  match t with
  | Zpos p => if parity_pos p then 1 else 0
  | _ => 0
  end.

(** Modelled from the spec: [liquid_bdotprod] is declared in
    liquid.internal.h and defined outside this file; the specification
    gives it as the parity (XOR-reduction) of the bitwise AND of its two
    arguments. *)
Definition liquid_bdotprod (_x _y : Z) : Z := parity (Z.land _x _y).

(** Modelled from the spec: [liquid_msb_index] is defined outside this
    file; the specification gives it as the 1-based position of the
    highest set bit, i.e. the number of significant bits of its argument,
    which is 0 for a zero argument. *)
Definition liquid_msb_index (_x : Z) : Z :=
  match _x with
  | Zpos p => Z.log2 (Zpos p) + 1
  | _ => 0
  end.

(** ** The generator object *)

Definition LIQUID_MIN_MSEQUENCE_M : Z := 2.
Definition LIQUID_MAX_MSEQUENCE_M : Z := 31.

(** [struct msequence_s]; the fields carry the names of the C struct. *)
Record msequence_s : Set := mk_msequence {
  m : Z;  (* length generator polynomial, shift register *)
  g : Z;  (* generator polynomial *)
  a : Z;  (* initial shift register state *)
  n : Z;  (* length of sequence, n = (2^m)-1 *)
  v : Z;  (* shift register *)
  b : Z   (* return bit *)
}.

(** The type [msequence] is a pointer to the struct: [None] is the null
    pointer that [liquid_error_config] hands back after reporting. *)
Definition msequence : Set := option msequence_s.

(** Modelled from the spec: [liquid_error_config] reports a configuration
    error to the shared error facility and evaluates to the null
    sentinel. *)
Definition liquid_error_config (msg : string) : msequence := None.

(** The table of default generators, rows 0 to 15. *)
Definition msequence_default : list msequence_s :=
  [ mk_msequence 0 0 1 0 1 0;
    mk_msequence 0 0 1 0 1 0;
    mk_msequence 2  0x0003 0x0002 (uint (Z.shiftl 1 2  - 1)) 0x0002 0;
    mk_msequence 3  0x0005 0x0004 (uint (Z.shiftl 1 3  - 1)) 0x0004 0;
    mk_msequence 4  0x0009 0x0008 (uint (Z.shiftl 1 4  - 1)) 0x0008 0;
    mk_msequence 5  0x0012 0x0010 (uint (Z.shiftl 1 5  - 1)) 0x0010 0;
    mk_msequence 6  0x0021 0x0020 (uint (Z.shiftl 1 6  - 1)) 0x0020 0;
    mk_msequence 7  0x0044 0x0040 (uint (Z.shiftl 1 7  - 1)) 0x0040 0;
    mk_msequence 8  0x008E 0x0080 (uint (Z.shiftl 1 8  - 1)) 0x0080 0;
    mk_msequence 9  0x0108 0x0100 (uint (Z.shiftl 1 9  - 1)) 0x0100 0;
    mk_msequence 10 0x0204 0x0200 (uint (Z.shiftl 1 10 - 1)) 0x0200 0;
    mk_msequence 11 0x0402 0x0400 (uint (Z.shiftl 1 11 - 1)) 0x0400 0;
    mk_msequence 12 0x0829 0x0800 (uint (Z.shiftl 1 12 - 1)) 0x0800 0;
    mk_msequence 13 0x100d 0x1000 (uint (Z.shiftl 1 13 - 1)) 0x1000 0;
    mk_msequence 14 0x2015 0x2000 (uint (Z.shiftl 1 14 - 1)) 0x2000 0;
    mk_msequence 15 0x4001 0x4000 (uint (Z.shiftl 1 15 - 1)) 0x4000 0 ].

(** The seed loop of [msequence_create]: [k] further iterations of
    [a <<= 1; a |= (_a & 0x01); _a >>= 1], on the pair of the register
    being built and what is left of the raw seed. *)
Fixpoint create_seed_loop (k : nat) (acc _a : Z) : Z * Z :=
  match k with
  | O => (acc, _a)
  | S k' =>
      let acc1 := uint (Z.shiftl acc 1) in
      let acc2 := Z.lor acc1 (Z.land _a 0x01) in
      create_seed_loop k' acc2 (Z.shiftr _a 1)
  end.

(** [msequence_create]; [(1<<_m)-1] is computed in [int] and stored in
    an [unsigned int], which the wrap-around of [uint] covers for
    [_m = 31] as well. *)
Definition msequence_create (_m _g _a : Z) : msequence :=
  if (_m >? LIQUID_MAX_MSEQUENCE_M) || (_m <? LIQUID_MIN_MSEQUENCE_M)
  then liquid_error_config "msequence_create(), m not in range"
  else
    let a' := fst (create_seed_loop (Z.to_nat _m) 0 _a) in
    Some {| m := _m;
            g := Z.shiftr _g 1;
            a := a';
            n := uint (Z.shiftl 1 _m - 1);
            v := a';
            b := 0 |}.

Definition msequence_create_genpoly (_g : Z) : msequence :=
  let t := liquid_msb_index _g in
  if t <? 2
  then liquid_error_config
         "msequence_create_genpoly(), invalid generator polynomial: 0x%x"
  else
    let m' := uint (t - 1) in
    let a' := 1 in
    msequence_create m' _g a'.

Definition msequence_create_default (_m : Z) : msequence :=
  if (_m <? LIQUID_MIN_MSEQUENCE_M) || (_m >? 15)
  then liquid_error_config "msequence_create(), m not in range"
  else nth_error msequence_default (Z.to_nat _m).

(** ** Operations: each returns its C result and the updated object *)

Definition msequence_advance (_ms : msequence_s) : Z * msequence_s :=
  let b' := liquid_bdotprod (v _ms) (g _ms) in
  let v1 := uint (Z.shiftl (v _ms) 1) in
  let v2 := Z.lor v1 b' in
  let v3 := Z.land v2 (n _ms) in
  (b', {| m := m _ms; g := g _ms; a := a _ms; n := n _ms; v := v3; b := b' |}).

(** The loop of [msequence_generate_symbol]: [k] further iterations on
    the accumulator [s] and the object. *)
Fixpoint generate_symbol_loop (k : nat) (s : Z) (_ms : msequence_s)
  : Z * msequence_s :=
  match k with
  | O => (s, _ms)
  | S k' =>
      let s1 := uint (Z.shiftl s 1) in
      let '(bit, ms1) := msequence_advance _ms in
      generate_symbol_loop k' (Z.lor s1 bit) ms1
  end.

Definition msequence_generate_symbol (_ms : msequence_s) (_bps : Z)
  : Z * msequence_s :=
  generate_symbol_loop (Z.to_nat _bps) 0 _ms.

Definition msequence_reset (_ms : msequence_s) : msequence_s :=
  {| m := m _ms; g := g _ms; a := a _ms; n := n _ms; v := a _ms; b := b _ms |}.

Definition msequence_get_state (_ms : msequence_s) : Z := v _ms.

Definition msequence_set_state (_ms : msequence_s) (_a : Z) : msequence_s :=
  {| m := m _ms; g := g _ms; a := a _ms; n := n _ms; v := _a; b := b _ms |}.

(** ** Sequences of calls *)

(** [k] sequential calls of [msequence_advance]: the bits returned, first
    call first, and the object after the last call. *)
Fixpoint advance_seq (k : nat) (_ms : msequence_s) : list Z * msequence_s :=
  match k with
  | O => ([], _ms)
  | S k' =>
      let '(bit, ms1) := msequence_advance _ms in
      let '(bits, ms2) := advance_seq k' ms1 in
      (bit :: bits, ms2)
  end.

(** The four mutating operations of the public interface. *)
Inductive operation : Set :=
| Advance
| GenerateSymbol (_bps : Z)
| Reset
| SetState (_a : Z).

Definition apply_operation (_ms : msequence_s) (o : operation) : msequence_s :=
  match o with
  | Advance => snd (msequence_advance _ms)
  | GenerateSymbol _bps => snd (msequence_generate_symbol _ms _bps)
  | Reset => msequence_reset _ms
  | SetState _a => msequence_set_state _ms _a
  end.

Definition run (ops : list operation) (_ms : msequence_s) : msequence_s :=
  fold_left apply_operation ops _ms.

(** Arguments of type [unsigned int] lie in the 32-bit range. *)
Definition operation_args_ok (o : operation) : Prop :=
  match o with
  | GenerateSymbol _bps => is_uint _bps
  | SetState _a => is_uint _a
  | _ => True
  end.

(** An object as one of the three constructors returns it. *)
Inductive constructed : msequence_s -> Prop :=
| constructed_create (_m _g _a : Z) (ms : msequence_s) :
    is_uint _m -> is_uint _g -> is_uint _a ->
    msequence_create _m _g _a = Some ms -> constructed ms
| constructed_genpoly (_g : Z) (ms : msequence_s) :
    is_uint _g ->
    msequence_create_genpoly _g = Some ms -> constructed ms
| constructed_default (_m : Z) (ms : msequence_s) :
    is_uint _m ->
    msequence_create_default _m = Some ms -> constructed ms.

(** A constructed object after any finite sequence of operations. *)
Definition valid (ms : msequence_s) : Prop :=
  exists ms0 ops,
    constructed ms0 /\ Forall operation_args_ok ops /\ ms = run ops ms0.

(** What every reachable object satisfies, whatever [set_state] wrote. *)
Definition well_formed (ms : msequence_s) : Prop :=
  2 <= m ms <= 31 /\ n ms = 2 ^ m ms - 1 /\ 0 <= a ms <= n ms /\
  is_uint (v ms).

(** XOR of the binary digits [0 .. k-1] of [t]. *)
Fixpoint xor_bits (k : nat) (t : Z) : bool :=
  match k with
  | O => false
  | S k' => xorb (Z.testbit t (Z.of_nat k')) (xor_bits k' t)
  end.

(** The value of a list of bits read with its head as the most
    significant digit, in unbounded arithmetic. *)
Definition msb_first_value (bits : list Z) : Z :=
  fold_left (fun s bit => 2 * s + bit) bits 0.

(** Shift-left-then-OR accumulation in an [unsigned int]. *)
Definition shift_or_accumulate (bits : list Z) : Z :=
  fold_left (fun s bit => Z.lor (uint (Z.shiftl s 1)) bit) bits 0.

(** [d] is a period of the finite stream [bits]. *)
Definition periodic (d : nat) (bits : list Z) : Prop :=
  forall i : nat, (i + d < length bits)%nat ->
    nth i bits 0 = nth (i + d) bits 0.

(** [set_state] arguments that fit the register. *)
Definition set_state_within (bound : Z) (o : operation) : Prop :=
  match o with
  | SetState _a => 0 <= _a <= bound
  | _ => True
  end.

(** The facts the constructors establish, as a check that runs. *)
Definition well_formedb (ms : msequence_s) : bool :=
  (2 <=? m ms) && (m ms <=? 31) && (n ms =? 2 ^ m ms - 1)
  && (0 <=? v ms) && (v ms <=? n ms) && (a ms =? v ms)
  && (0 <=? g ms) && (g ms <? 2 ^ m ms).

(** Two lists agree wherever both are defined. *)
Fixpoint agree (l1 l2 : list Z) : bool :=
  match l1, l2 with
  | x :: t1, y :: t2 => (x =? y) && agree t1 t2
  | _, _ => true
  end.

(** Decides [periodic d bits]: the stream against itself shifted by [d]. *)
Definition periodicb (d : nat) (bits : list Z) : bool :=
  agree bits (skipn d bits).

(** No [d' >= d] among the next [fuel] candidates both divides [len] and
    is a period of [bits]. *)
Fixpoint no_divisor_period (fuel : nat) (d len : Z) (bits : list Z) : bool :=
  match fuel with
  | O => true
  | S fuel' =>
      if len mod d =? 0
      then if periodicb (Z.to_nat d) bits then false
           else no_divisor_period fuel' (d + 1) len bits
      else no_divisor_period fuel' (d + 1) len bits
  end.

(** The check run on a row of the default table: one full period
    returns the register to the initial state, the bits are not all
    equal, and no proper divisor of the length is a period. *)
Definition full_period_checkb (ms : msequence_s) : bool :=
  let k := Z.to_nat (n ms) in
  let r := advance_seq k ms in
  (v (snd r) =? a ms) && (a ms =? v ms)
  && existsb (Z.eqb 0) (fst r) && existsb (Z.eqb 1) (fst r)
  && no_divisor_period (k - 1) 1 (n ms) (fst r).

(** ** The rest of the interface *)

Definition LIQUID_OK : Z := 0.

Definition msequence_get_genpoly_length (_ms : msequence_s) : Z := m _ms.

Definition msequence_get_length (_ms : msequence_s) : Z := n _ms.

Definition msequence_get_genpoly (_ms : msequence_s) : Z := g _ms.

(** [printf("%u", x)]. *)
Definition print_unsigned (x : Z) : string :=
  NilZero.string_of_uint (N.to_uint (Z.to_N x)).

Definition newline : string := String "010"%char EmptyString.

(** The two printing loops of [msequence_print] are the same loop on the
    register and on the polynomial: [k] further iterations, at index [i],
    of [printf("%c", (x >> (m-i-1)) & 0x01 ? '1' : '0')]. *)
Fixpoint print_bits_loop (k : nat) (i _m x : Z) : string :=
  match k with
  | O => EmptyString
  | S k' =>
      String (if Z.land (Z.shiftr x (uint (_m - i - 1))) 0x01 =? 0
              then "0"%char else "1"%char)
             (print_bits_loop k' (uint (i + 1)) _m x)
  end.

Definition print_bits (_m x : Z) : string :=
  print_bits_loop (Z.to_nat _m) 0 _m x.

(** [msequence_print]: the text written to the standard output and the
    status returned. *)
Definition msequence_print (_m : msequence_s) : string * Z :=
  (("msequence: m=" ++ print_unsigned (m _m)
      ++ " (n=" ++ print_unsigned (n _m) ++ "):" ++ newline
    ++ "    shift register: " ++ print_bits (m _m) (v _m) ++ newline
    ++ "    generator poly: " ++ print_bits (m _m) (g _m) ++ newline)%string,
   LIQUID_OK).

(** The number a string of binary digits denotes, first digit most
    significant, on top of the digits [acc] already read. *)
Fixpoint binary_value (acc : Z) (s : string) : Z :=
  match s with
  | EmptyString => acc
  | String c rest =>
      binary_value (2 * acc + (if Ascii.eqb c "1"%char then 1 else 0)) rest
  end.

(** The binary sequence object is defined outside this file;
    [bsequence_init_msequence] uses its [bsequence_reset] and
    [bsequence_push] only, which are taken as parameters. *)
Section BinarySequenceBuffer.
Variable bsequence : Type.
Variable bsequence_reset : bsequence -> bsequence.
Variable bsequence_push : bsequence -> Z -> bsequence.

(** [k] further iterations of the loop
    [bsequence_push(_bs, msequence_advance(_ms))]. *)
Fixpoint init_msequence_loop (k : nat) (_bs : bsequence) (_ms : msequence_s)
  : bsequence * msequence_s :=
  match k with
  | O => (_bs, _ms)
  | S k' =>
      let '(bit, ms1) := msequence_advance _ms in
      init_msequence_loop k' (bsequence_push _bs bit) ms1
  end.

(** The loop bound [_ms->n] is read at every iteration; no advance
    changes it, so the loop runs [n] times. *)
Definition bsequence_init_msequence (_bs : bsequence) (_ms : msequence_s)
  : bsequence * msequence_s :=
  init_msequence_loop (Z.to_nat (n _ms)) (bsequence_reset _bs) _ms.
End BinarySequenceBuffer.

(** Operations other than [set_state]. *)
Definition not_set_state (o : operation) : Prop :=
  match o with
  | SetState _ => False
  | _ => True
  end.

(** Some of the next [k] advances brings the register to [target]. *)
Fixpoint returns_within (k : nat) (target : Z) (_ms : msequence_s) : bool :=
  match k with
  | O => false
  | S k' =>
      let ms1 := snd (msequence_advance _ms) in
      if v ms1 =? target then true else returns_within k' target ms1
  end.

(** The check run on a row of the default table for the balance of one
    period and for the first return of the register. *)
Definition balance_checkb (ms : msequence_s) : bool :=
  let k := Z.to_nat (n ms) in
  let bits := fst (advance_seq k ms) in
  (Z.of_nat (count_occ Z.eq_dec bits 1) =? 2 ^ (m ms - 1))
  && (Z.of_nat (count_occ Z.eq_dec bits 0) =? 2 ^ (m ms - 1) - 1)
  && negb (returns_within (k - 1) (v ms) ms).

(** The static facts of a row of the default table. *)
Definition default_row_checkb (ms : msequence_s) : bool :=
  (a ms =? 2 ^ (m ms - 1)) && (b ms =? 0) && Z.testbit (g ms) (m ms - 1).

Definition msequence_eqb (x y : msequence_s) : bool :=
  (m x =? m y) && (g x =? g y) && (a x =? a y)
  && (n x =? n y) && (v x =? v y) && (b x =? b y).

(** The row is what the other two constructors build from its
    polynomial, with the implied bit put back, and the seed 1. *)
Definition default_row_rebuiltb (ms : msequence_s) : bool :=
  match msequence_create_genpoly (2 * g ms + 1),
        msequence_create (m ms) (2 * g ms) 1 with
  | Some x, Some y => msequence_eqb x ms && msequence_eqb y ms
  | _, _ => false
  end.

(** ** Unsigned arithmetic facts *)

Lemma pow2_32 : 2 ^ UINT_BITS = 4294967296.
Proof. reflexivity. Qed.

Lemma uint_range x : is_uint (uint x).
Proof. unfold is_uint, uint. apply Z.mod_pos_bound. rewrite pow2_32. lia. Qed.

Lemma uint_small x : is_uint x -> uint x = x.
Proof. unfold is_uint, uint. intros H. now apply Z.mod_small. Qed.

Lemma uint_testbit_low x i : 0 <= i < UINT_BITS ->
  Z.testbit (uint x) i = Z.testbit x i.
Proof. intros H. unfold uint. apply Z.mod_pow2_bits_low. lia. Qed.

Lemma mask_value _m : 2 <= _m <= 31 -> uint (Z.shiftl 1 _m - 1) = 2 ^ _m - 1.
Proof.
  intros H. rewrite Z.shiftl_1_l. apply uint_small.
  unfold is_uint. rewrite pow2_32.
  assert (0 < 2 ^ _m) by (apply Z.pow_pos_nonneg; lia).
  assert (2 ^ _m <= 2 ^ 31) by (apply Z.pow_le_mono_r; lia).
  change (2 ^ 31) with 2147483648 in *. lia.
Qed.

Lemma land_mask x k : 0 <= k -> Z.land x (2 ^ k - 1) = x mod 2 ^ k.
Proof.
  intros H. rewrite <- Z.land_ones by assumption.
  now rewrite Z.ones_equiv, Z.sub_1_r.
Qed.

Lemma mod_uint_pow2 x k : 0 <= k <= UINT_BITS ->
  uint x mod 2 ^ k = x mod 2 ^ k.
Proof.
  intros H. unfold uint. apply Z.mod_mod_divide.
  exists (2 ^ (UINT_BITS - k)). rewrite <- Z.pow_add_r by lia.
  f_equal. lia.
Qed.

Lemma land_double_one x : Z.land (2 * x) 1 = 0.
Proof.
  apply Z.bits_inj'. intros i Hi. rewrite Z.land_spec, Z.bits_0.
  destruct (Z.eq_dec i 0) as [-> | Hne].
  - now rewrite Z.testbit_even_0.
  - replace (Z.testbit 1 i) with false; [apply andb_false_r|].
    symmetry. apply Z.bits_above_log2; simpl; lia.
Qed.

Lemma lor_bit_add x bit : (bit = 0 \/ bit = 1) ->
  Z.lor (Z.shiftl x 1) bit = 2 * x + bit.
Proof.
  rewrite Z.shiftl_mul_pow2 by lia. change (2 ^ 1) with 2.
  rewrite (Z.mul_comm x 2). intros [-> | ->].
  - rewrite Z.lor_0_r. lia.
  - rewrite <- Z.lxor_lor by apply land_double_one.
    symmetry. apply Z.add_nocarry_lxor, land_double_one.
Qed.

Lemma land_is_uint x y : is_uint x -> is_uint (Z.land x y).
Proof.
  intros Hx. rewrite <- (uint_small x Hx). unfold uint.
  rewrite <- Z.land_ones by (unfold UINT_BITS; lia).
  rewrite <- Z.land_assoc, (Z.land_comm (Z.ones _) y), Z.land_assoc.
  rewrite Z.land_ones by (unfold UINT_BITS; lia).
  apply uint_range.
Qed.

(** ** The parity primitive is the XOR of the 32 binary digits *)

Lemma xor_bits_zero k : xor_bits k 0 = false.
Proof. induction k as [|k IH]; simpl; [reflexivity|]. now rewrite Z.bits_0, IH. Qed.

Lemma xor_bits_low k t :
  xor_bits (S k) t = xorb (Z.testbit t 0) (xor_bits k (Z.div2 t)).
Proof.
  induction k as [|k IH].
  - simpl. reflexivity.
  - change (xor_bits (S (S k)) t)
      with (xorb (Z.testbit t (Z.of_nat (S k))) (xor_bits (S k) t)).
    rewrite IH.
    change (xor_bits (S k) (Z.div2 t))
      with (xorb (Z.testbit (Z.div2 t) (Z.of_nat k)) (xor_bits k (Z.div2 t))).
    rewrite Z.div2_spec, Z.shiftr_spec by lia.
    replace (Z.of_nat k + 1) with (Z.of_nat (S k)) by lia.
    destruct (Z.testbit t (Z.of_nat (S k))), (Z.testbit t 0),
      (xor_bits k (Z.shiftr t 1)); reflexivity.
Qed.

Lemma parity_pos_xor_bits k : forall p,
  Zpos p < 2 ^ Z.of_nat k -> parity_pos p = xor_bits k (Zpos p).
Proof.
  induction k as [|k IH]; intros p Hp.
  - simpl in Hp. lia.
  - rewrite Nat2Z.inj_succ, Z.pow_succ_r in Hp by lia.
    rewrite xor_bits_low. destruct p as [q | q | ]; simpl.
    + rewrite <- IH by lia. reflexivity.
    + rewrite <- IH by lia. reflexivity.
    + now rewrite xor_bits_zero.
Qed.

Lemma parity_xor_reduction t :
  is_uint t -> parity t = Z.b2z (xor_bits 32 t).
Proof.
  intros [H0 H1]. destruct t as [| p | p]; try lia.
  - reflexivity.
  - unfold parity. rewrite (parity_pos_xor_bits 32 p) by exact H1.
    now destruct (xor_bits 32 (Z.pos p)).
Qed.

Lemma parity_bit t : parity t = 0 \/ parity t = 1.
Proof. destruct t as [| p | p]; simpl; auto. destruct (parity_pos p); auto. Qed.

(** ** One step of the register *)

Lemma masked_shift x bit k : 0 <= k <= UINT_BITS -> (bit = 0 \/ bit = 1) ->
  Z.land (Z.lor (uint (Z.shiftl x 1)) bit) (2 ^ k - 1) = (2 * x + bit) mod 2 ^ k.
Proof.
  intros Hk Hb. rewrite land_mask by lia.
  rewrite <- (lor_bit_add x bit Hb).
  rewrite <- !Z.land_ones by lia.
  apply Z.bits_inj'. intros i Hi.
  rewrite !Z.land_spec, !Z.lor_spec.
  destruct (Z.lt_ge_cases i k) as [Hlt | Hge].
  - rewrite uint_testbit_low by lia. reflexivity.
  - rewrite Z.ones_spec_high by lia. now rewrite !andb_false_r.
Qed.

Lemma advance_fields ms :
  let ms' := snd (msequence_advance ms) in
  m ms' = m ms /\ g ms' = g ms /\ a ms' = a ms /\ n ms' = n ms.
Proof. simpl. auto. Qed.

Lemma advance_state ms : 2 <= m ms <= 31 -> n ms = 2 ^ m ms - 1 ->
  v (snd (msequence_advance ms))
  = (2 * v ms + fst (msequence_advance ms)) mod 2 ^ m ms.
Proof.
  intros Hm Hn. simpl. rewrite Hn.
  apply masked_shift; [unfold UINT_BITS; lia | apply parity_bit].
Qed.

Lemma advance_state_range ms : 2 <= m ms <= 31 -> n ms = 2 ^ m ms - 1 ->
  0 <= v (snd (msequence_advance ms)) <= n ms.
Proof.
  intros Hm Hn. rewrite advance_state by assumption. rewrite Hn.
  assert (0 < 2 ^ m ms) by (apply Z.pow_pos_nonneg; lia).
  pose proof (Z.mod_pos_bound (2 * v ms + fst (msequence_advance ms)) (2 ^ m ms)).
  lia.
Qed.

Lemma mask_is_uint k : 2 <= k <= 31 -> 2 ^ k - 1 < 2 ^ UINT_BITS.
Proof.
  intros H. assert (2 ^ k <= 2 ^ 31) by (apply Z.pow_le_mono_r; lia).
  rewrite pow2_32. change (2 ^ 31) with 2147483648 in *. lia.
Qed.

(** ** The seed loop of the explicit constructor *)

Lemma testbit_one i : 0 < i -> Z.testbit 1 i = false.
Proof. intros H. apply Z.bits_above_log2; simpl; lia. Qed.

Lemma land_one_bit x : Z.land x 1 = 0 \/ Z.land x 1 = 1.
Proof.
  assert (H : Z.land x 1 = x mod 2)
    by (change 1 with (Z.ones 1); rewrite Z.land_ones by lia; reflexivity).
  rewrite H. pose proof (Z.mod_pos_bound x 2). lia.
Qed.

Lemma seed_step_bits acc _a i : 0 <= i ->
  Z.testbit (Z.lor (Z.shiftl acc 1) (Z.land _a 1)) i
  = if i =? 0 then Z.testbit _a 0 else Z.testbit acc (i - 1).
Proof.
  intros Hi. rewrite Z.lor_spec, Z.land_spec.
  destruct (Z.eqb_spec i 0) as [-> | Hne].
  - rewrite Z.shiftl_spec_low by lia. simpl. now rewrite andb_true_r.
  - rewrite Z.shiftl_spec by lia. rewrite testbit_one by lia.
    now rewrite andb_false_r, orb_false_r.
Qed.

Lemma create_seed_loop_bits k : forall acc _a j,
  0 <= j -> j + Z.of_nat k <= UINT_BITS -> 0 <= acc < 2 ^ j ->
  let r := fst (create_seed_loop k acc _a) in
  0 <= r < 2 ^ (j + Z.of_nat k) /\
  forall i, 0 <= i ->
    Z.testbit r i = if i <? Z.of_nat k
                    then Z.testbit _a (Z.of_nat k - 1 - i)
                    else Z.testbit acc (i - Z.of_nat k).
Proof.
  induction k as [|k IH]; intros acc _a j Hj Hk Hacc.
  - simpl. rewrite Z.add_0_r. split; [assumption|].
    intros i Hi. destruct (Z.ltb_spec i 0); [lia|]. now rewrite Z.sub_0_r.
  - cbn [create_seed_loop].
    assert (Hpow : 2 ^ (j + 1) = 2 * 2 ^ j)
      by (rewrite Z.pow_add_r by lia; change (2 ^ 1) with 2; lia).
    assert (Hle : 2 ^ (j + 1) <= 2 ^ UINT_BITS)
      by (apply Z.pow_le_mono_r; lia).
    assert (Hsh : uint (Z.shiftl acc 1) = Z.shiftl acc 1).
    { apply uint_small. unfold is_uint.
      rewrite Z.shiftl_mul_pow2 by lia. change (2 ^ 1) with 2. lia. }
    rewrite Hsh.
    assert (Hacc2 : 0 <= Z.lor (Z.shiftl acc 1) (Z.land _a 1) < 2 ^ (j + 1)).
    { rewrite lor_bit_add by apply land_one_bit.
      destruct (land_one_bit _a) as [-> | ->]; lia. }
    destruct (IH (Z.lor (Z.shiftl acc 1) (Z.land _a 1)) (Z.shiftr _a 1) (j + 1))
      as [Hr Hbits]; [lia | lia | exact Hacc2 |].
    split.
    + replace (j + Z.of_nat (S k)) with (j + 1 + Z.of_nat k) by lia. exact Hr.
    + intros i Hi. rewrite (Hbits i Hi).
      destruct (Z.ltb_spec i (Z.of_nat k)) as [Hlt | Hge].
      * destruct (Z.ltb_spec i (Z.of_nat (S k))); [|lia].
        rewrite Z.shiftr_spec by lia. f_equal. lia.
      * rewrite seed_step_bits by lia.
        destruct (Z.eqb_spec (i - Z.of_nat k) 0) as [He | Hne].
        -- destruct (Z.ltb_spec i (Z.of_nat (S k))); [|lia]. f_equal. lia.
        -- destruct (Z.ltb_spec i (Z.of_nat (S k))); [lia|]. f_equal. lia.
Qed.

(** The register that [msequence_create] stores. *)
Lemma create_some _m _g _a : 2 <= _m <= 31 ->
  msequence_create _m _g _a
  = Some {| m := _m; g := Z.shiftr _g 1;
            a := fst (create_seed_loop (Z.to_nat _m) 0 _a);
            n := 2 ^ _m - 1;
            v := fst (create_seed_loop (Z.to_nat _m) 0 _a);
            b := 0 |}.
Proof.
  intros H. unfold msequence_create, LIQUID_MAX_MSEQUENCE_M, LIQUID_MIN_MSEQUENCE_M.
  destruct (Z.gtb_spec _m 31); [lia|]. destruct (Z.ltb_spec _m 2); [lia|].
  simpl orb. cbv iota. now rewrite mask_value.
Qed.

Lemma create_none _m _g _a : ~ (2 <= _m <= 31) ->
  msequence_create _m _g _a = None.
Proof.
  intros H. unfold msequence_create, LIQUID_MAX_MSEQUENCE_M, LIQUID_MIN_MSEQUENCE_M.
  destruct (Z.gtb_spec _m 31); [reflexivity|].
  destruct (Z.ltb_spec _m 2); [reflexivity|lia].
Qed.

Lemma create_seed_range _m _a : 2 <= _m <= 31 ->
  0 <= fst (create_seed_loop (Z.to_nat _m) 0 _a) < 2 ^ _m.
Proof.
  intros H.
  destruct (create_seed_loop_bits (Z.to_nat _m) 0 _a 0) as [Hr _].
  - lia.
  - unfold UINT_BITS. lia.
  - simpl. lia.
  - rewrite Z2Nat.id, Z.add_0_l in Hr by lia. exact Hr.
Qed.

Lemma create_seed_bits _m _a i : 2 <= _m <= 31 -> 0 <= i ->
  Z.testbit (fst (create_seed_loop (Z.to_nat _m) 0 _a)) i
  = if i <? _m then Z.testbit _a (_m - 1 - i) else false.
Proof.
  intros H Hi.
  destruct (create_seed_loop_bits (Z.to_nat _m) 0 _a 0) as [_ Hb].
  - lia.
  - unfold UINT_BITS. lia.
  - simpl. lia.
  - rewrite (Hb i Hi), Z2Nat.id, Z.bits_0 by lia. reflexivity.
Qed.

(** ** The derived and the table constructors *)

Lemma msb_index_log2 _g : 0 < _g -> liquid_msb_index _g = Z.log2 _g + 1.
Proof. destruct _g; simpl; intros; try lia; reflexivity. Qed.

Lemma log2_uint _g : is_uint _g -> 0 <= Z.log2 _g <= 31.
Proof.
  intros [H0 H1]. split; [apply Z.log2_nonneg|].
  destruct (Z.eq_dec _g 0) as [-> | Hne]; [simpl; lia|].
  assert (Z.log2 _g < UINT_BITS) by (apply Z.log2_lt_pow2; lia).
  unfold UINT_BITS in *. lia.
Qed.

Lemma msb_index_small _g : is_uint _g ->
  (liquid_msb_index _g - 1 < 2 <-> _g < 4).
Proof.
  intros [H0 H1]. destruct (Z.eq_dec _g 0) as [-> | Hne]; [simpl; lia|].
  rewrite msb_index_log2 by lia.
  assert (Z.log2 _g < 2 <-> _g < 2 ^ 2) by (symmetry; apply Z.log2_lt_pow2; lia).
  change (2 ^ 2) with 4 in *. lia.
Qed.

Lemma create_genpoly_some _g : is_uint _g -> 4 <= _g ->
  2 <= Z.log2 _g <= 31 /\
  msequence_create_genpoly _g = msequence_create (Z.log2 _g) _g 1.
Proof.
  intros Hu H4. pose proof (log2_uint _g Hu) as Hl.
  assert (Hl2 : 2 <= Z.log2 _g)
    by (change 2 with (Z.log2 4) at 1; apply Z.log2_le_mono; lia).
  split; [lia|]. unfold msequence_create_genpoly.
  rewrite msb_index_log2 by lia.
  destruct (Z.ltb_spec (Z.log2 _g + 1) 2); [lia|].
  replace (Z.log2 _g + 1 - 1) with (Z.log2 _g) by lia.
  rewrite uint_small; [reflexivity|]. unfold is_uint. rewrite pow2_32. lia.
Qed.

Lemma create_genpoly_none _g : is_uint _g -> _g < 4 ->
  msequence_create_genpoly _g = None.
Proof.
  intros [H0 H1] H4.
  assert (Hc : _g = 0 \/ _g = 1 \/ _g = 2 \/ _g = 3) by lia.
  destruct Hc as [-> | [-> | [-> | ->]]]; reflexivity.
Qed.

Lemma create_default_row _m ms : msequence_create_default _m = Some ms ->
  2 <= _m <= 15 /\ m ms = _m /\
  nth_error msequence_default (Z.to_nat _m) = Some ms.
Proof.
  unfold msequence_create_default, LIQUID_MIN_MSEQUENCE_M.
  destruct (Z.ltb_spec _m 2) as [Hlo | Hlo]; [discriminate|].
  destruct (Z.gtb_spec _m 15) as [Hhi | Hhi]; [discriminate|].
  simpl orb. cbv iota. intros H. split; [lia|]. split; [|exact H].
  assert (Hc : _m = 2 \/ _m = 3 \/ _m = 4 \/ _m = 5 \/ _m = 6 \/ _m = 7 \/
               _m = 8 \/ _m = 9 \/ _m = 10 \/ _m = 11 \/ _m = 12 \/
               _m = 13 \/ _m = 14 \/ _m = 15) by lia.
  repeat (destruct Hc as [-> | Hc];
          [cbv in H; injection H as <-; reflexivity|]).
  subst _m. cbv in H. injection H as <-. reflexivity.
Qed.

(** A property checked on the fourteen rows holds of every object the
    table constructor returns. *)
Lemma create_default_forallb (f : msequence_s -> bool) :
  forallb f (skipn 2 msequence_default) = true ->
  forall _m ms, msequence_create_default _m = Some ms -> f ms = true.
Proof.
  intros Hf _m ms H. apply create_default_row in H as (Hm & _ & Hn).
  rewrite forallb_forall in Hf. apply Hf.
  apply nth_error_In with (n := (Z.to_nat _m - 2)%nat).
  rewrite nth_error_skipn. rewrite <- Hn. f_equal. lia.
Qed.

Lemma well_formedb_spec ms : well_formedb ms = true ->
  2 <= m ms <= 31 /\ n ms = 2 ^ m ms - 1 /\ 0 <= v ms <= n ms /\
  a ms = v ms /\ 0 <= g ms < 2 ^ m ms.
Proof.
  unfold well_formedb. rewrite !andb_true_iff.
  rewrite !Z.leb_le, !Z.eqb_eq, Z.ltb_lt. lia.
Qed.

(** What the constructors establish. *)
Lemma constructed_facts ms : constructed ms ->
  2 <= m ms <= 31 /\ n ms = 2 ^ m ms - 1 /\ 0 <= v ms <= n ms /\
  a ms = v ms /\ 0 <= g ms.
Proof.
  assert (Hc : forall _m _g _a r, is_uint _g ->
            msequence_create _m _g _a = Some r ->
            2 <= m r <= 31 /\ n r = 2 ^ m r - 1 /\ 0 <= v r <= n r /\
            a r = v r /\ 0 <= g r).
  { intros _m _g _a r Hg H.
    destruct (Z.le_gt_cases 2 _m) as [H2 | H2];
      [destruct (Z.le_gt_cases _m 31) as [H31 | H31]|];
      try (rewrite create_none in H by lia; discriminate).
    rewrite create_some in H by lia. injection H as <-. simpl.
    pose proof (create_seed_range _m _a (conj H2 H31)).
    repeat split; try lia. apply Z.shiftr_nonneg. apply Hg. }
  intros [_m _g _a r Hm Hg Ha H | _g r Hg H | _m r Hm H].
  - eauto.
  - destruct (Z.lt_ge_cases _g 4) as [Hlt | Hge].
    + rewrite create_genpoly_none in H by assumption. discriminate.
    + destruct (create_genpoly_some _g Hg Hge) as [_ He].
      rewrite He in H. eauto.
  - apply (create_default_forallb well_formedb) in H; [|reflexivity].
    apply well_formedb_spec in H. lia.
Qed.

(** ** Sequences of advances *)

Lemma advance_seq_succ k ms :
  advance_seq (S k) ms
  = (fst (msequence_advance ms) :: fst (advance_seq k (snd (msequence_advance ms))),
     snd (advance_seq k (snd (msequence_advance ms)))).
Proof.
  cbn [advance_seq]. destruct (msequence_advance ms) as [bit ms1].
  cbn [fst snd]. destruct (advance_seq k ms1) as [bits ms2]. reflexivity.
Qed.

Lemma advance_seq_length k : forall ms, length (fst (advance_seq k ms)) = k.
Proof.
  induction k as [|k IH]; intros ms; [reflexivity|].
  rewrite advance_seq_succ. simpl. now rewrite IH.
Qed.

Lemma advance_seq_fields k : forall ms,
  let ms' := snd (advance_seq k ms) in
  m ms' = m ms /\ g ms' = g ms /\ a ms' = a ms /\ n ms' = n ms.
Proof.
  induction k as [|k IH]; intros ms; [simpl; auto|].
  rewrite advance_seq_succ. cbn [snd].
  destruct (IH (snd (msequence_advance ms))) as (Hm & Hg & Ha & Hn).
  simpl in *. auto.
Qed.

Lemma advance_ext ms1 ms2 :
  v ms1 = v ms2 -> g ms1 = g ms2 -> n ms1 = n ms2 ->
  fst (msequence_advance ms1) = fst (msequence_advance ms2) /\
  v (snd (msequence_advance ms1)) = v (snd (msequence_advance ms2)).
Proof.
  intros Hv Hg Hn. unfold msequence_advance. cbn [fst snd v].
  now rewrite Hv, Hg, Hn.
Qed.

(** The bits and the next registers depend on the register, the
    polynomial and the mask only. *)
Lemma advance_seq_ext k : forall ms1 ms2,
  v ms1 = v ms2 -> g ms1 = g ms2 -> n ms1 = n ms2 ->
  fst (advance_seq k ms1) = fst (advance_seq k ms2) /\
  v (snd (advance_seq k ms1)) = v (snd (advance_seq k ms2)).
Proof.
  induction k as [|k IH]; intros ms1 ms2 Hv Hg Hn; [simpl; auto|].
  rewrite !advance_seq_succ. cbn [fst snd].
  destruct (advance_ext ms1 ms2 Hv Hg Hn) as [Hb1 Hv1].
  destruct (IH (snd (msequence_advance ms1)) (snd (msequence_advance ms2)))
    as [Hb Hs]; [exact Hv1 | exact Hg | exact Hn |].
  split; [|exact Hs]. now rewrite Hb1, Hb.
Qed.

Lemma advance_seq_state_range k : forall ms,
  2 <= m ms <= 31 -> n ms = 2 ^ m ms - 1 -> 0 <= v ms <= n ms ->
  0 <= v (snd (advance_seq k ms)) <= n ms.
Proof.
  induction k as [|k IH]; intros ms Hm Hn Hv; [exact Hv|].
  rewrite advance_seq_succ. cbn [snd].
  pose proof (advance_state_range ms Hm Hn) as Hr.
  apply (IH (snd (msequence_advance ms))); simpl; assumption.
Qed.

Lemma advance_seq_state_uint k : forall ms,
  2 <= m ms <= 31 -> n ms = 2 ^ m ms - 1 -> is_uint (v ms) ->
  is_uint (v (snd (advance_seq k ms))).
Proof.
  intros ms Hm Hn Hv. destruct k as [|k]; [exact Hv|].
  rewrite advance_seq_succ. cbn [snd].
  pose proof (advance_state_range ms Hm Hn) as Hr.
  destruct (advance_fields ms) as (Hm1 & _ & _ & Hn1).
  assert (Hk : 0 <= v (snd (advance_seq k (snd (msequence_advance ms))))
               <= n (snd (msequence_advance ms)))
    by (apply advance_seq_state_range; rewrite ?Hm1, ?Hn1; assumption).
  rewrite Hn1 in Hk.
  pose proof (mask_is_uint (m ms) Hm). unfold is_uint. lia.
Qed.

(** ** Symbol generation against sequential advances *)

Lemma generate_symbol_loop_advance_seq k : forall s ms,
  generate_symbol_loop k s ms
  = (fold_left (fun s bit => Z.lor (uint (Z.shiftl s 1)) bit)
       (fst (advance_seq k ms)) s,
     snd (advance_seq k ms)).
Proof.
  induction k as [|k IH]; intros s ms; [reflexivity|].
  rewrite advance_seq_succ. cbn [generate_symbol_loop fst snd fold_left].
  destruct (msequence_advance ms) as [bit ms1]. cbn [fst snd]. apply IH.
Qed.

Lemma msb_first_value_range bits : Forall (fun x => x = 0 \/ x = 1) bits ->
  forall s, 0 <= s ->
  let r := fold_left (fun s bit => 2 * s + bit) bits s in
  s * 2 ^ Z.of_nat (length bits) <= r < (s + 1) * 2 ^ Z.of_nat (length bits).
Proof.
  induction 1 as [|x l Hx Hl IH]; intros s Hs.
  - simpl. lia.
  - cbn [fold_left length]. rewrite Nat2Z.inj_succ, Z.pow_succ_r by lia.
    specialize (IH (2 * s + x)). cbv zeta in IH.
    assert (0 < 2 ^ Z.of_nat (length l)) by (apply Z.pow_pos_nonneg; lia).
    destruct Hx as [-> | ->]; nia.
Qed.

Lemma shift_or_no_wrap bits : Forall (fun x => x = 0 \/ x = 1) bits ->
  forall s j, 0 <= s < 2 ^ j -> 0 <= j ->
  j + Z.of_nat (length bits) <= UINT_BITS ->
  fold_left (fun s bit => Z.lor (uint (Z.shiftl s 1)) bit) bits s
  = fold_left (fun s bit => 2 * s + bit) bits s.
Proof.
  induction 1 as [|x l Hx Hl IH]; intros s j Hs Hj Hlen; [reflexivity|].
  cbn [fold_left length] in *.
  assert (Hp : 2 ^ (j + 1) = 2 * 2 ^ j)
    by (rewrite Z.pow_add_r by lia; change (2 ^ 1) with 2; lia).
  assert (Hle : 2 ^ (j + 1) <= 2 ^ UINT_BITS) by (apply Z.pow_le_mono_r; lia).
  assert (Hsh : uint (Z.shiftl s 1) = Z.shiftl s 1).
  { apply uint_small. unfold is_uint.
    rewrite Z.shiftl_mul_pow2 by lia. change (2 ^ 1) with 2. lia. }
  rewrite Hsh, lor_bit_add by exact Hx.
  apply (IH (2 * s + x) (j + 1)); [|lia|lia].
  destruct Hx as [-> | ->]; lia.
Qed.

Lemma shift_or_step_mod s s' x : (x = 0 \/ x = 1) ->
  s = s' mod 2 ^ UINT_BITS ->
  Z.lor (uint (Z.shiftl s 1)) x = (2 * s' + x) mod 2 ^ UINT_BITS.
Proof.
  intros Hx ->. unfold uint. rewrite Z.shiftl_mul_pow2 by lia.
  change (2 ^ 1) with 2. rewrite pow2_32.
  assert (He : (s' mod 4294967296 * 2) mod 4294967296
               = 2 * (s' mod 2147483648))
    by (Z.div_mod_to_equations; lia).
  rewrite He.
  assert (Hl : Z.lor (2 * (s' mod 2147483648)) x
               = 2 * (s' mod 2147483648) + x).
  { rewrite <- (lor_bit_add _ x Hx), Z.shiftl_mul_pow2 by lia.
    change (2 ^ 1) with 2. now rewrite Z.mul_comm. }
  rewrite Hl. destruct Hx as [-> | ->]; Z.div_mod_to_equations; lia.
Qed.

Lemma shift_or_mod bits : Forall (fun x => x = 0 \/ x = 1) bits ->
  forall s s', s = s' mod 2 ^ UINT_BITS ->
  fold_left (fun s bit => Z.lor (uint (Z.shiftl s 1)) bit) bits s
  = fold_left (fun s bit => 2 * s + bit) bits s' mod 2 ^ UINT_BITS.
Proof.
  induction 1 as [|x l Hx Hl IH]; intros s s' Hs; [exact Hs|].
  cbn [fold_left]. apply IH. now apply shift_or_step_mod.
Qed.

Lemma advance_seq_bits k : forall ms,
  Forall (fun x => x = 0 \/ x = 1) (fst (advance_seq k ms)).
Proof.
  induction k as [|k IH]; intros ms; [constructor|].
  rewrite advance_seq_succ. cbn [fst]. constructor; [|apply IH].
  apply parity_bit.
Qed.

Lemma generate_symbol_state ms _bps :
  snd (msequence_generate_symbol ms _bps)
  = snd (advance_seq (Z.to_nat _bps) ms).
Proof.
  unfold msequence_generate_symbol.
  now rewrite generate_symbol_loop_advance_seq.
Qed.

(** ** Invariants along sequences of operations *)

Lemma apply_operation_fields ms o :
  let ms' := apply_operation ms o in
  m ms' = m ms /\ g ms' = g ms /\ a ms' = a ms /\ n ms' = n ms.
Proof.
  destruct o as [| _bps | | _a]; cbn [apply_operation].
  - apply advance_fields.
  - rewrite generate_symbol_state. apply advance_seq_fields.
  - cbn. auto.
  - cbn. auto.
Qed.

Lemma constructed_well_formed ms : constructed ms -> well_formed ms.
Proof.
  intros H. destruct (constructed_facts ms H) as (Hm & Hn & Hv & Ha & Hg).
  pose proof (mask_is_uint (m ms) Hm).
  unfold well_formed, is_uint. rewrite Ha. lia.
Qed.

Lemma apply_operation_well_formed ms o :
  operation_args_ok o -> well_formed ms -> well_formed (apply_operation ms o).
Proof.
  intros Ho (Hm & Hn & Ha & Hv).
  destruct (apply_operation_fields ms o) as (Em & _ & Ea & En).
  pose proof (mask_is_uint (m ms) Hm) as Hmask.
  assert (Hv' : is_uint (v (apply_operation ms o))).
  { destruct o as [| _bps | | _a]; cbn [apply_operation].
    - apply (advance_seq_state_uint 1 ms Hm Hn Hv).
    - rewrite generate_symbol_state.
      apply (advance_seq_state_uint _ ms Hm Hn Hv).
    - unfold msequence_reset, is_uint. cbn [v]. lia.
    - unfold msequence_set_state. cbn [v]. exact Ho. }
  unfold well_formed. rewrite Em, Ea, En. auto.
Qed.

Lemma run_well_formed ops : forall ms,
  Forall operation_args_ok ops -> well_formed ms -> well_formed (run ops ms).
Proof.
  induction ops as [|o ops IH]; intros ms Hops Hwf; [exact Hwf|].
  inversion Hops as [|? ? Ho Hrest]; subst.
  apply (IH (apply_operation ms o) Hrest).
  now apply apply_operation_well_formed.
Qed.

Lemma valid_well_formed ms : valid ms -> well_formed ms.
Proof.
  intros (ms0 & ops & Hc & Hops & ->).
  apply run_well_formed; [exact Hops | now apply constructed_well_formed].
Qed.

Lemma apply_operation_state_range ms o :
  2 <= m ms <= 31 -> n ms = 2 ^ m ms - 1 -> 0 <= a ms <= n ms ->
  set_state_within (n ms) o -> 0 <= v ms <= n ms ->
  0 <= v (apply_operation ms o) <= n ms.
Proof.
  intros Hm Hn Ha Ho Hv. destruct o as [| _bps | | _a]; cbn [apply_operation].
  - apply (advance_seq_state_range 1 ms Hm Hn Hv).
  - rewrite generate_symbol_state. now apply advance_seq_state_range.
  - exact Ha.
  - exact Ho.
Qed.

Lemma run_state_range ops : forall ms,
  2 <= m ms <= 31 -> n ms = 2 ^ m ms - 1 -> 0 <= a ms <= n ms ->
  Forall (set_state_within (n ms)) ops -> 0 <= v ms <= n ms ->
  0 <= v (run ops ms) <= n (run ops ms).
Proof.
  induction ops as [|o ops IH]; intros ms Hm Hn Ha Hops Hv; [exact Hv|].
  inversion Hops as [|? ? Ho Hrest]; subst.
  destruct (apply_operation_fields ms o) as (Em & _ & Ea & En).
  cbn [run fold_left]. apply (IH (apply_operation ms o)).
  - now rewrite Em.
  - now rewrite En, Em.
  - now rewrite Ea, En.
  - now rewrite En.
  - rewrite En. now apply apply_operation_state_range.
Qed.

(** ** The claims *)

(** C1. For every validly constructed generator, one call of advance
    takes as feedback bit the XOR of the binary digits of
    [currentState AND polynomial], replaces the register by
    [((currentState << 1) OR feedbackBit) AND sequenceLength], where
    [sequenceLength = 2^registerLength - 1] (so that the new register is
    [2 * currentState + feedbackBit] reduced modulo [2^registerLength]),
    stores the feedback bit as lastOutputBit and returns it. *)
Theorem advance_feedback_shift_mask (ms : msequence_s) :
  valid ms ->
  let feedbackBit := Z.b2z (xor_bits 32 (Z.land (v ms) (g ms))) in
  n ms = 2 ^ m ms - 1 /\
  msequence_advance ms
  = (feedbackBit,
     {| m := m ms; g := g ms; a := a ms; n := n ms;
        v := Z.land (Z.lor (Z.shiftl (v ms) 1) feedbackBit) (n ms);
        b := feedbackBit |}) /\
  v (snd (msequence_advance ms)) = (2 * v ms + feedbackBit) mod 2 ^ m ms.
Proof.
  intros Hvalid. apply valid_well_formed in Hvalid as (Hm & Hn & Ha & Hv).
  assert (Hfb : liquid_bdotprod (v ms) (g ms)
                = Z.b2z (xor_bits 32 (Z.land (v ms) (g ms)))).
  { unfold liquid_bdotprod. apply parity_xor_reduction.
    now apply land_is_uint. }
  assert (Hbit : liquid_bdotprod (v ms) (g ms) = 0 \/
                 liquid_bdotprod (v ms) (g ms) = 1) by apply parity_bit.
  cbv zeta. rewrite <- Hfb. split; [exact Hn|].
  assert (Hstate : Z.land (Z.lor (uint (Z.shiftl (v ms) 1))
                            (liquid_bdotprod (v ms) (g ms))) (n ms)
                   = (2 * v ms + liquid_bdotprod (v ms) (g ms)) mod 2 ^ m ms).
  { rewrite Hn. apply masked_shift; [unfold UINT_BITS; lia | exact Hbit]. }
  split.
  - unfold msequence_advance. rewrite Hstate. do 2 f_equal.
    rewrite Hn at 1. rewrite land_mask by lia. now rewrite lor_bit_add.
  - unfold msequence_advance. cbn [snd v]. exact Hstate.
Qed.

Lemma default_4_valid :
  valid {| m := 4; g := 9; a := 8; n := 15; v := 8; b := 0 |}.
Proof.
  exists {| m := 4; g := 9; a := 8; n := 15; v := 8; b := 0 |}, [].
  split; [|split; [constructor | reflexivity]].
  apply (constructed_default 4); [|reflexivity].
  unfold is_uint. rewrite pow2_32. lia.
Defined.

Lemma advance_feedback_shift_mask_witness :
  msequence_advance {| m := 4; g := 9; a := 8; n := 15; v := 8; b := 0 |}
  = (1, {| m := 4; g := 9; a := 8; n := 15; v := 1; b := 1 |}).
Proof.
  exact (proj1 (proj2 (advance_feedback_shift_mask _ default_4_valid))).
Defined.

(** C3, the claim as stated fails: [msequence_set_state] stores its
    argument unmasked, so after [set_state(16)] on the default generator
    of length 4 the register holds 16, above sequenceLength = 15. *)
Lemma state_range_broken_by_set_state :
  ~ (forall ms0 ops,
       constructed ms0 -> Forall operation_args_ok ops ->
       0 <= v (run ops ms0) <= n (run ops ms0)).
Proof.
  intros H.
  specialize (H {| m := 4; g := 9; a := 8; n := 15; v := 8; b := 0 |}
                [SetState 16]).
  cbn in H. destruct H as [_ H].
  - apply (constructed_default 4); [|reflexivity].
    unfold is_uint. rewrite pow2_32. lia.
  - repeat constructor. unfold UINT_BITS. lia.
  - lia.
Qed.

(** C3, amended. For every constructed generator and every finite
    sequence of advance, generateSymbol, reset and setState in which each
    setState argument is at most sequenceLength, the resulting register
    satisfies [0 <= currentState <= sequenceLength]. *)
Theorem state_range_invariant (ms0 : msequence_s) (ops : list operation) :
  constructed ms0 ->
  Forall operation_args_ok ops ->
  Forall (set_state_within (n ms0)) ops ->
  0 <= v (run ops ms0) <= n (run ops ms0).
Proof.
  intros Hc _ Hops.
  destruct (constructed_facts ms0 Hc) as (Hm & Hn & Hv & Ha & _).
  apply run_state_range; try assumption. rewrite Ha. exact Hv.
Qed.

Lemma default_4_constructed :
  constructed {| m := 4; g := 9; a := 8; n := 15; v := 8; b := 0 |}.
Proof.
  apply (constructed_default 4); [|reflexivity].
  unfold is_uint. rewrite pow2_32. lia.
Defined.

Lemma state_range_invariant_witness :
  0 <= v (run [SetState 15; Advance; GenerateSymbol 3; Reset; Advance]
            {| m := 4; g := 9; a := 8; n := 15; v := 8; b := 0 |}) <= 15.
Proof.
  apply (state_range_invariant
           {| m := 4; g := 9; a := 8; n := 15; v := 8; b := 0 |}
           [SetState 15; Advance; GenerateSymbol 3; Reset; Advance]).
  - exact default_4_constructed.
  - repeat constructor; unfold UINT_BITS; simpl; lia.
  - repeat constructor; simpl; lia.
Defined.

(** C4, the claim as stated fails: [msequence_create] stores [_g >> 1]
    as it is, so [create(2, 0xFF, 1)] holds the polynomial 0x7F, which
    has bits at positions 2 to 6. *)
Lemma polynomial_width_broken_by_create :
  ~ (forall ms, constructed ms -> g ms < 2 ^ m ms).
Proof.
  intros H.
  specialize (H {| m := 2; g := 127; a := 2; n := 3; v := 2; b := 0 |}).
  cbn in H. enough (127 < 4) by lia. apply H.
  apply (constructed_create 2 255 1); try reflexivity;
    unfold is_uint; rewrite pow2_32; lia.
Qed.

Lemma shiftr_1_lt x p : 0 <= x -> (Z.shiftr x 1 < p <-> x < 2 * p).
Proof.
  intros Hx. rewrite Z.shiftr_div_pow2 by lia. change (2 ^ 1) with 2.
  Z.div_mod_to_equations. lia.
Qed.

(** C4, amended. The stored polynomial is below [2^registerLength] for
    every generator returned by createFromGenPoly or by createDefault,
    and for one returned by explicit create exactly when the raw
    polynomial is below [2^(m+1)]; explicit create stores [g >> 1]
    unmasked. *)
Theorem polynomial_width :
  (forall _g ms, is_uint _g -> msequence_create_genpoly _g = Some ms ->
     0 <= g ms < 2 ^ m ms) /\
  (forall _m ms, msequence_create_default _m = Some ms ->
     0 <= g ms < 2 ^ m ms) /\
  (forall _m _g _a ms, is_uint _g -> msequence_create _m _g _a = Some ms ->
     m ms = _m /\ g ms = Z.shiftr _g 1 /\
     (g ms < 2 ^ m ms <-> _g < 2 ^ (_m + 1))).
Proof.
  assert (Hc : forall _m _g _a ms, is_uint _g ->
            msequence_create _m _g _a = Some ms ->
            m ms = _m /\ g ms = Z.shiftr _g 1 /\
            (g ms < 2 ^ m ms <-> _g < 2 ^ (_m + 1))).
  { intros _m _g _a ms Hg H.
    destruct (Z.le_gt_cases 2 _m) as [H2 | H2];
      [destruct (Z.le_gt_cases _m 31) as [H31 | H31]|];
      try (rewrite create_none in H by lia; discriminate).
    rewrite create_some in H by lia. injection H as <-. cbn [m g].
    split; [reflexivity|]. split; [reflexivity|].
    rewrite Z.pow_add_r by lia. change (2 ^ 1) with 2.
    rewrite shiftr_1_lt by apply Hg. lia. }
  split; [|split].
  - intros _g ms Hg H.
    destruct (Z.lt_ge_cases _g 4) as [Hlt | Hge].
    + rewrite create_genpoly_none in H by assumption. discriminate.
    + destruct (create_genpoly_some _g Hg Hge) as [Hl He].
      rewrite He in H. destruct (Hc _ _ _ _ Hg H) as (Em & Eg & Hiff).
      split; [rewrite Eg; apply Z.shiftr_nonneg, Hg|].
      apply Hiff. replace (Z.log2 _g + 1) with (Z.succ (Z.log2 _g)) by lia.
      apply Z.log2_spec. lia.
  - intros _m ms H.
    apply (create_default_forallb well_formedb) in H; [|reflexivity].
    apply well_formedb_spec in H. lia.
  - exact Hc.
Qed.

Lemma polynomial_width_witness :
  0 <= g {| m := 4; g := 9; a := 8; n := 15; v := 8; b := 0 |}
    < 2 ^ m {| m := 4; g := 9; a := 8; n := 15; v := 8; b := 0 |}.
Proof.
  apply (proj1 polynomial_width 0x13).
  - unfold is_uint, UINT_BITS. lia.
  - reflexivity.
Defined.

(** C5. For every register length m in [2,31] and every raw seed,
    explicit construction stores as initialState the reversal of the low
    m bits of the seed: stored bit [i] is seed bit [m-1-i] for [i < m],
    and no bit at position m or above is set.  In particular, with m = 4
    the seed 0b0001 is stored as 0b1000 and 0b1000 as 0b0001. *)
Theorem create_initial_state_bit_reversed (_m _g _a : Z) :
  2 <= _m <= 31 ->
  (exists ms, msequence_create _m _g _a = Some ms /\
     (forall i, 0 <= i < _m ->
        Z.testbit (a ms) i = Z.testbit _a (_m - 1 - i)) /\
     (forall i, _m <= i -> Z.testbit (a ms) i = false) /\
     v ms = a ms) /\
  option_map a (msequence_create 4 _g 1) = Some 8 /\
  option_map a (msequence_create 4 _g 8) = Some 1.
Proof.
  intros Hm. split; [|split; reflexivity].
  eexists. split; [apply create_some; exact Hm|]. cbn [a v].
  split; [|split; [|reflexivity]].
  - intros i Hi. rewrite create_seed_bits by lia.
    destruct (Z.ltb_spec i _m); [reflexivity | lia].
  - intros i Hi. rewrite create_seed_bits by lia.
    destruct (Z.ltb_spec i _m); [lia | reflexivity].
Qed.

Lemma create_initial_state_bit_reversed_witness :
  2 <= 5 <= 31 /\
  exists ms, msequence_create 5 0x25 6 = Some ms /\
    (forall i, 0 <= i < 5 -> Z.testbit (a ms) i = Z.testbit 6 (5 - 1 - i)) /\
    (forall i, 5 <= i -> Z.testbit (a ms) i = false) /\
    v ms = a ms.
Proof.
  split; [lia|].
  apply (create_initial_state_bit_reversed 5 0x25 6). lia.
Defined.

(** C10. For every m in [2,31], every raw polynomial and every two raw
    seeds that agree on their low m bits, explicit construction returns
    the same generator: seed bits at positions m and above are ignored. *)
Theorem create_ignores_high_seed_bits (_m _g _a _a' : Z) :
  2 <= _m <= 31 ->
  _a mod 2 ^ _m = _a' mod 2 ^ _m ->
  exists ms, msequence_create _m _g _a = Some ms /\
             msequence_create _m _g _a' = Some ms.
Proof.
  intros Hm Heq.
  assert (Hs : fst (create_seed_loop (Z.to_nat _m) 0 _a)
               = fst (create_seed_loop (Z.to_nat _m) 0 _a')).
  { apply Z.bits_inj'. intros i Hi. rewrite !create_seed_bits by lia.
    destruct (Z.ltb_spec i _m); [|reflexivity].
    rewrite <- (Z.mod_pow2_bits_low _a _m) by lia.
    rewrite <- (Z.mod_pow2_bits_low _a' _m) by lia.
    now rewrite Heq. }
  eexists. split; [apply create_some; exact Hm|].
  rewrite create_some by exact Hm. now rewrite Hs.
Qed.

Lemma create_ignores_high_seed_bits_witness :
  exists ms, msequence_create 4 0x13 0x05 = Some ms /\
             msequence_create 4 0x13 0xF5 = Some ms.
Proof.
  apply create_ignores_high_seed_bits; [lia | reflexivity].
Defined.

(** C6. For every raw polynomial g, createFromGenPoly returns the error
    sentinel exactly when [msbIndex(g) - 1 < 2], which is when g has
    fewer than three significant bits ([g < 4]); otherwise it returns the
    generator of [create(msbIndex(g) - 1, g, 1)]. *)
Theorem create_genpoly_error_or_create (_g : Z) :
  is_uint _g ->
  (msequence_create_genpoly _g = None <-> liquid_msb_index _g - 1 < 2) /\
  (liquid_msb_index _g - 1 < 2 <-> _g < 4) /\
  (~ liquid_msb_index _g - 1 < 2 ->
   exists ms, msequence_create (liquid_msb_index _g - 1) _g 1 = Some ms /\
              msequence_create_genpoly _g = Some ms).
Proof.
  intros Hg. pose proof (msb_index_small _g Hg) as Hsmall.
  destruct (Z.lt_ge_cases _g 4) as [Hlt | Hge].
  - pose proof (create_genpoly_none _g Hg Hlt) as Hnone.
    split; [|split]; [rewrite Hnone; tauto | exact Hsmall | tauto].
  - destruct (create_genpoly_some _g Hg Hge) as [Hl He].
    assert (Hidx : liquid_msb_index _g - 1 = Z.log2 _g)
      by (rewrite msb_index_log2 by lia; lia).
    rewrite Hidx in *. rewrite He.
    rewrite (create_some _ _ _ Hl).
    split; [|split]; [split; [discriminate | lia] | exact Hsmall |].
    intros _. eexists. split; reflexivity.
Qed.

Lemma create_genpoly_error_or_create_witness :
  msequence_create_genpoly 3 = None /\
  msequence_create_genpoly 0x13
  = Some {| m := 4; g := 9; a := 8; n := 15; v := 8; b := 0 |}.
Proof.
  assert (H3 : is_uint 3) by (unfold is_uint, UINT_BITS; lia).
  assert (H19 : is_uint 0x13) by (unfold is_uint, UINT_BITS; lia).
  split.
  - apply (proj1 (create_genpoly_error_or_create 3 H3)). simpl. lia.
  - destruct (proj2 (proj2 (create_genpoly_error_or_create 0x13 H19)))
      as (ms & Hc & Hp); [simpl; lia|].
    rewrite Hp, <- Hc. reflexivity.
Defined.

(** C7. For every constructed generator, every number K of advances made
    after construction and every N: reset followed by N advances returns
    the same N bits as the first N advances after construction. *)
Theorem reset_reproduces_initial_bits (ms0 : msequence_s) (K N : nat) :
  constructed ms0 ->
  v (msequence_reset (snd (advance_seq K ms0))) = a ms0 /\
  fst (advance_seq N (msequence_reset (snd (advance_seq K ms0))))
  = fst (advance_seq N ms0).
Proof.
  intros Hc. destruct (constructed_facts ms0 Hc) as (_ & _ & _ & Ha & _).
  destruct (advance_seq_fields K ms0) as (_ & Eg & Ea & En).
  split; [exact Ea|].
  apply advance_seq_ext; unfold msequence_reset; cbn [v g n]; congruence.
Qed.

Lemma reset_reproduces_initial_bits_witness :
  fst (advance_seq 6 (msequence_reset (snd (advance_seq 11
         {| m := 4; g := 9; a := 8; n := 15; v := 8; b := 0 |}))))
  = [1; 1; 1; 1; 0; 1].
Proof.
  rewrite (proj2 (reset_reproduces_initial_bits _ 11 6 default_4_constructed)).
  reflexivity.
Defined.

(** C8, the claim as stated fails: the symbol is accumulated in an
    [unsigned int], so beyond 32 bits the bits produced first are shifted
    out.  On the default generator of length 4, [generateSymbol] of 33
    bits returns 3944994375, while the 33 bits read with the first one
    most significant are the number 8239961671; the first bit produced,
    a 1 worth [2^32], is not in the result. *)
Lemma generate_symbol_msb_first_fails_beyond_width :
  fst (msequence_generate_symbol
         {| m := 4; g := 9; a := 8; n := 15; v := 8; b := 0 |} 33)
  = 3944994375 /\
  msb_first_value
    (fst (advance_seq 33 {| m := 4; g := 9; a := 8; n := 15; v := 8; b := 0 |}))
  = 8239961671 /\
  ~ (forall ms _bps,
       valid ms -> 0 <= _bps ->
       fst (msequence_generate_symbol ms _bps)
       = msb_first_value (fst (advance_seq (Z.to_nat _bps) ms))).
Proof.
  split; [vm_compute; reflexivity|]. split; [vm_compute; reflexivity|].
  intros H.
  specialize (H {| m := 4; g := 9; a := 8; n := 15; v := 8; b := 0 |} 33
                default_4_valid ltac:(lia)).
  vm_compute in H. discriminate H.
Qed.

(** C8, amended. For every generator and every bitsPerSymbol k,
    generateSymbol leaves the generator as k sequential advances leave
    it and returns the shift-left-then-OR accumulation, in an unsigned
    int, of the bits of those advances.  For k at most 32, the width of
    the result, that value is the binary number whose most significant
    digit is the first bit produced; beyond 32 it is that number reduced
    modulo 2^32.  For k = 3 it is [4*b1 + 2*b2 + b3] for the results b1,
    b2, b3 of three sequential advances. *)
Theorem generate_symbol_msb_first (ms : msequence_s) (_bps : Z) :
  let k := Z.to_nat _bps in
  let bits := fst (advance_seq k ms) in
  msequence_generate_symbol ms _bps
  = (shift_or_accumulate bits, snd (advance_seq k ms)) /\
  fst (msequence_generate_symbol ms _bps)
  = msb_first_value bits mod 2 ^ UINT_BITS /\
  (_bps <= UINT_BITS ->
   fst (msequence_generate_symbol ms _bps) = msb_first_value bits /\
   0 <= msb_first_value bits < 2 ^ Z.of_nat k) /\
  (let '(b1, ms1) := msequence_advance ms in
   let '(b2, ms2) := msequence_advance ms1 in
   let '(b3, ms3) := msequence_advance ms2 in
   msequence_generate_symbol ms 3 = (4 * b1 + 2 * b2 + b3, ms3)).
Proof.
  cbv zeta.
  assert (Hgen : forall j, msequence_generate_symbol ms j
            = (shift_or_accumulate (fst (advance_seq (Z.to_nat j) ms)),
               snd (advance_seq (Z.to_nat j) ms))).
  { intros j. unfold msequence_generate_symbol.
    now rewrite generate_symbol_loop_advance_seq. }
  assert (Hval : forall j : nat, Z.of_nat j <= UINT_BITS ->
            shift_or_accumulate (fst (advance_seq j ms))
            = msb_first_value (fst (advance_seq j ms))).
  { intros j Hj. unfold shift_or_accumulate, msb_first_value.
    apply (shift_or_no_wrap _ (advance_seq_bits j ms) 0 0).
    - simpl. lia.
    - lia.
    - rewrite advance_seq_length. lia. }
  split; [apply Hgen|]. split; [|split].
  - rewrite Hgen. cbn [fst]. unfold shift_or_accumulate, msb_first_value.
    apply shift_or_mod; [apply advance_seq_bits | reflexivity].
  - intros Hle. rewrite Hgen. cbn [fst].
    split; [apply Hval; unfold UINT_BITS in *; lia|].
    pose proof (msb_first_value_range _
                  (advance_seq_bits (Z.to_nat _bps) ms) 0 (Z.le_refl 0)) as Hr.
    cbv zeta in Hr. rewrite advance_seq_length in Hr.
    unfold msb_first_value. lia.
  - rewrite Hgen. change (Z.to_nat 3) with 3%nat.
    rewrite (Hval 3%nat) by (unfold UINT_BITS; lia).
    rewrite !advance_seq_succ. cbn [advance_seq fst snd].
    destruct (msequence_advance ms) as [b1 ms1]. cbn [fst snd].
    destruct (msequence_advance ms1) as [b2 ms2]. cbn [fst snd].
    destruct (msequence_advance ms2) as [b3 ms3]. cbn [fst snd].
    unfold msb_first_value. cbn [fold_left]. f_equal. lia.
Qed.

Lemma generate_symbol_msb_first_witness :
  3 <= UINT_BITS /\
  fst (msequence_generate_symbol
         {| m := 4; g := 9; a := 8; n := 15; v := 2; b := 0 |} 3)
  = msb_first_value [0; 0; 1].
Proof.
  assert (H : 3 <= UINT_BITS) by (unfold UINT_BITS; lia).
  split; [exact H|].
  exact (proj1 (proj1 (proj2 (proj2 (generate_symbol_msb_first
           {| m := 4; g := 9; a := 8; n := 15; v := 2; b := 0 |} 3))) H)).
Defined.

(** C9. For every generator whose register is all-zero, as after
    [setState(0)], each advance returns 0 and leaves the register at
    zero: any number of further advances yields only zeros. *)
Theorem zero_state_locked (ms : msequence_s) (k : nat) :
  v ms = 0 ->
  msequence_advance ms
  = (0, {| m := m ms; g := g ms; a := a ms; n := n ms; v := 0; b := 0 |}) /\
  fst (advance_seq k ms) = repeat 0 k /\
  v (snd (advance_seq k ms)) = 0.
Proof.
  assert (Hstep : forall r, v r = 0 ->
            msequence_advance r
            = (0, {| m := m r; g := g r; a := a r; n := n r;
                     v := 0; b := 0 |})).
  { intros r Hr. unfold msequence_advance, liquid_bdotprod.
    rewrite Hr. reflexivity. }
  intros Hv. split; [now apply Hstep|].
  revert ms Hv. induction k as [|k IH]; intros ms Hv; [simpl; auto|].
  rewrite advance_seq_succ, (Hstep ms Hv). cbn [fst snd repeat].
  destruct (IH {| m := m ms; g := g ms; a := a ms; n := n ms;
                  v := 0; b := 0 |} eq_refl) as [Hb Hs].
  now rewrite Hb, Hs.
Qed.

Lemma zero_state_locked_witness :
  fst (advance_seq 40
         (msequence_set_state
            {| m := 4; g := 9; a := 8; n := 15; v := 8; b := 0 |} 0))
  = repeat 0 40%nat.
Proof.
  apply (zero_state_locked
           (msequence_set_state
              {| m := 4; g := 9; a := 8; n := 15; v := 8; b := 0 |} 0) 40).
  reflexivity.
Defined.

(** ** One full period of the default generators *)

Lemma agree_complete l1 : forall l2,
  (forall i : nat, (i < length l1)%nat -> (i < length l2)%nat ->
     nth i l1 0 = nth i l2 0) ->
  agree l1 l2 = true.
Proof.
  induction l1 as [|x t1 IH]; intros [|y t2] H; try reflexivity.
  cbn [agree]. apply andb_true_iff. split.
  - apply Z.eqb_eq. apply (H 0%nat); simpl; lia.
  - apply IH. intros i H1 H2. apply (H (S i)); simpl; lia.
Qed.

Lemma periodicb_complete d bits : periodic d bits -> periodicb d bits = true.
Proof.
  intros H. unfold periodicb. apply agree_complete.
  intros i _ Hi. rewrite length_skipn in Hi. rewrite nth_skipn.
  rewrite (Nat.add_comm d i). apply H. lia.
Qed.

Lemma no_divisor_period_sound fuel : forall d0 len bits,
  0 < d0 ->
  no_divisor_period fuel d0 len bits = true ->
  forall d, d0 <= d < d0 + Z.of_nat fuel -> (d | len) ->
    ~ periodic (Z.to_nat d) bits.
Proof.
  induction fuel as [|fuel IH]; intros d0 len bits Hd0 Hchk d Hd Hdiv Hper.
  - lia.
  - cbn [no_divisor_period] in Hchk.
    destruct (Z.eq_dec d d0) as [-> | Hne].
    + apply Z.mod0_divide in Hdiv. rewrite Hdiv in Hchk. cbn in Hchk.
      now rewrite (periodicb_complete _ _ Hper) in Hchk.
    + assert (Hrest : no_divisor_period fuel (d0 + 1) len bits = true).
      { destruct (len mod d0 =? 0); [|exact Hchk].
        destruct (periodicb (Z.to_nat d0) bits); [discriminate | exact Hchk]. }
      apply (IH (d0 + 1) len bits ltac:(lia) Hrest d); [lia | assumption..].
Qed.

Lemma full_period_checkb_sound ms :
  2 <= m ms <= 31 -> n ms = 2 ^ m ms - 1 ->
  full_period_checkb ms = true ->
  let k := Z.to_nat (n ms) in
  let bits := fst (advance_seq k ms) in
  let ms' := snd (advance_seq k ms) in
  v ms' = a ms /\ v ms' = v ms /\
  In 0 bits /\ In 1 bits /\
  fst (advance_seq k ms') = bits /\
  forall d, 0 < d < n ms -> (d | n ms) -> ~ periodic (Z.to_nat d) bits.
Proof.
  intros Hm Hn. unfold full_period_checkb. cbv zeta.
  rewrite !andb_true_iff, !Z.eqb_eq.
  intros ((((Hret & Hav) & H0) & H1) & Hdiv).
  destruct (advance_seq_fields (Z.to_nat (n ms)) ms) as (_ & Eg & _ & En).
  assert (Hin : forall c, existsb (Z.eqb c) (fst (advance_seq (Z.to_nat (n ms)) ms))
                          = true ->
                In c (fst (advance_seq (Z.to_nat (n ms)) ms))).
  { intros c Hc. apply existsb_exists in Hc as (x & Hx & Hcx).
    apply Z.eqb_eq in Hcx. now subst x. }
  repeat split; auto; try congruence.
  - apply advance_seq_ext; congruence.
  - intros d Hd Hdn.
    apply (no_divisor_period_sound _ 1 (n ms) _ ltac:(lia) Hdiv d); [lia | exact Hdn].
Qed.

Lemma default_rows_full_period :
  forallb full_period_checkb (skipn 2 msequence_default) = true.
Proof. vm_compute. reflexivity. Qed.

Lemma create_default_total _m : 2 <= _m <= 15 ->
  exists ms, msequence_create_default _m = Some ms.
Proof.
  intros H.
  assert (Hc : _m = 2 \/ _m = 3 \/ _m = 4 \/ _m = 5 \/ _m = 6 \/ _m = 7 \/
               _m = 8 \/ _m = 9 \/ _m = 10 \/ _m = 11 \/ _m = 12 \/
               _m = 13 \/ _m = 14 \/ _m = 15) by lia.
  repeat (destruct Hc as [-> | Hc]; [eexists; reflexivity|]).
  subst _m. eexists; reflexivity.
Qed.

(** C2. For every register length m in [2,15], the generator of
    createDefault(m), advanced [sequenceLength = 2^m - 1] times, has its
    register back at initialState; the bits produced contain both a 0 and
    a 1, the next [2^m - 1] advances repeat them, and no proper divisor
    of [2^m - 1] is a period of them. *)
Theorem default_full_period (_m : Z) :
  2 <= _m <= 15 ->
  exists ms, msequence_create_default _m = Some ms /\
    m ms = _m /\ n ms = 2 ^ _m - 1 /\
    let k := Z.to_nat (n ms) in
    let bits := fst (advance_seq k ms) in
    let ms' := snd (advance_seq k ms) in
    length bits = Z.to_nat (2 ^ _m - 1) /\
    v ms' = a ms /\ v ms' = v ms /\
    In 0 bits /\ In 1 bits /\
    fst (advance_seq k ms') = bits /\
    forall d, 0 < d < 2 ^ _m - 1 -> (d | 2 ^ _m - 1) ->
      ~ periodic (Z.to_nat d) bits.
Proof.
  intros Hm. destruct (create_default_total _m Hm) as [ms Hms].
  exists ms. split; [exact Hms|].
  destruct (create_default_row _m ms Hms) as (_ & Em & _).
  pose proof (create_default_forallb well_formedb eq_refl _m ms Hms) as Hwf.
  apply well_formedb_spec in Hwf as (Hm' & Hn & _).
  pose proof (create_default_forallb full_period_checkb
                default_rows_full_period _m ms Hms) as Hchk.
  pose proof (full_period_checkb_sound ms Hm' Hn Hchk) as Hs.
  cbv zeta in *. rewrite Em in Hn.
  split; [exact Em|]. split; [exact Hn|].
  split; [rewrite advance_seq_length; now rewrite Hn|].
  rewrite <- Hn. exact Hs.
Qed.

Lemma default_full_period_witness :
  2 <= 3 <= 15 /\
  exists ms, msequence_create_default 3 = Some ms /\
    v (snd (advance_seq (Z.to_nat (n ms)) ms)) = a ms /\
    In 0 (fst (advance_seq (Z.to_nat (n ms)) ms)) /\
    In 1 (fst (advance_seq (Z.to_nat (n ms)) ms)).
Proof.
  assert (H : 2 <= 3 <= 15) by lia.
  split; [exact H|].
  destruct (default_full_period 3 H)
    as (ms & Hms & _ & _ & _ & Hret & _ & H0 & H1 & _).
  exists ms. auto.
Defined.

(** ** Further properties of the constructors *)

(** X1. [msequence_create] returns the null sentinel exactly when the length
    is outside [2,31]; any object it returns has the length asked for,
    the polynomial shifted right by one, the mask [2^m - 1], a register
    equal to the initial state and within the mask, and a zero output
    bit. *)
Theorem create_range_check (_m _g _a : Z) :
  (msequence_create _m _g _a = None <-> _m < 2 \/ 31 < _m) /\
  (forall ms, msequence_create _m _g _a = Some ms ->
     m ms = _m /\ g ms = Z.shiftr _g 1 /\ n ms = 2 ^ _m - 1 /\
     v ms = a ms /\ 0 <= v ms <= n ms /\ b ms = 0).
Proof.
  destruct (Z.lt_ge_cases _m 2) as [Hlo | Hlo];
    [|destruct (Z.lt_ge_cases 31 _m) as [Hhi | Hhi]].
  - rewrite create_none by lia. split; [tauto | discriminate].
  - rewrite create_none by lia. split; [tauto | discriminate].
  - rewrite create_some by lia. split; [split; [discriminate | lia]|].
    intros ms H. injection H as <-. cbn [m g a n v b].
    pose proof (create_seed_range _m _a ltac:(lia)). repeat split; lia.
Qed.

Lemma create_range_check_witness :
  msequence_create 32 0x13 1 = None /\ msequence_create 1 0x13 1 = None /\
  n {| m := 31; g := 9; a := 1073741824; n := 2147483647;
       v := 1073741824; b := 0 |} = 2 ^ 31 - 1.
Proof.
  split; [|split].
  - apply (proj1 (create_range_check 32 0x13 1)). lia.
  - apply (proj1 (create_range_check 1 0x13 1)). lia.
  - apply (proj2 (create_range_check 31 0x13 1)
             {| m := 31; g := 9; a := 1073741824; n := 2147483647;
                v := 1073741824; b := 0 |}).
    reflexivity.
Defined.

Lemma default_rows_static :
  forallb default_row_checkb (skipn 2 msequence_default) = true.
Proof. reflexivity. Qed.

(** X2. [msequence_create_default] returns the null sentinel exactly when
    the length is outside [2,15]; the object it returns has the length
    asked for, the mask [2^m - 1], the initial state [2^(m-1)] (the seed
    1 reversed), the register at the initial state and a zero output
    bit. *)
Theorem create_default_range_check (_m : Z) :
  (msequence_create_default _m = None <-> _m < 2 \/ 15 < _m) /\
  (forall ms, msequence_create_default _m = Some ms ->
     m ms = _m /\ n ms = 2 ^ _m - 1 /\ a ms = 2 ^ (_m - 1) /\
     v ms = a ms /\ b ms = 0).
Proof.
  split.
  - split.
    + intros H. destruct (Z.lt_ge_cases _m 2) as [Hlo | Hlo]; [lia|].
      destruct (Z.lt_ge_cases 15 _m) as [Hhi | Hhi]; [lia|].
      destruct (create_default_total _m ltac:(lia)) as [ms Hms]. congruence.
    + intros H. unfold msequence_create_default, LIQUID_MIN_MSEQUENCE_M.
      destruct (Z.ltb_spec _m 2) as [Hlo | Hlo]; [reflexivity|].
      destruct (Z.gtb_spec _m 15) as [Hhi | Hhi]; [reflexivity | lia].
  - intros ms H. destruct (create_default_row _m ms H) as (_ & Em & _).
    pose proof (create_default_forallb well_formedb eq_refl _m ms H) as Hwf.
    apply well_formedb_spec in Hwf as (_ & Hn & _ & Ha & _).
    pose proof (create_default_forallb default_row_checkb
                  default_rows_static _m ms H) as Hst.
    unfold default_row_checkb in Hst.
    rewrite !andb_true_iff, !Z.eqb_eq in Hst. destruct Hst as ((Ha0 & Hb) & _).
    rewrite Em in *. auto.
Qed.

Lemma create_default_range_check_witness :
  msequence_create_default 16 = None /\ msequence_create_default 1 = None /\
  a {| m := 15; g := 0x4001; a := 0x4000; n := 32767; v := 0x4000; b := 0 |}
  = 2 ^ (15 - 1).
Proof.
  split; [|split].
  - apply (proj1 (create_default_range_check 16)). lia.
  - apply (proj1 (create_default_range_check 1)). lia.
  - apply (proj2 (create_default_range_check 15)
             {| m := 15; g := 0x4001; a := 0x4000; n := 32767;
                v := 0x4000; b := 0 |}).
    reflexivity.
Defined.

Lemma msequence_eqb_eq x y : msequence_eqb x y = true -> x = y.
Proof.
  unfold msequence_eqb. rewrite !andb_true_iff, !Z.eqb_eq.
  destruct x, y. cbn. intros (((((-> & ->) & ->) & ->) & ->) & ->).
  reflexivity.
Qed.

Lemma default_rows_rebuilt :
  forallb default_row_rebuiltb (skipn 2 msequence_default) = true.
Proof. vm_compute. reflexivity. Qed.

(** X3. Every row of the default table is the object that the derived
    constructor builds from the row's polynomial with the implied low bit
    put back, and that the explicit constructor builds from the same
    polynomial, the row's length and the seed 1. *)
Theorem create_default_agrees_with_create (_m : Z) (ms : msequence_s) :
  msequence_create_default _m = Some ms ->
  msequence_create_genpoly (2 * g ms + 1) = Some ms /\
  msequence_create _m (2 * g ms) 1 = Some ms.
Proof.
  intros H. destruct (create_default_row _m ms H) as (_ & Em & _).
  pose proof (create_default_forallb default_row_rebuiltb
                default_rows_rebuilt _m ms H) as Hr.
  unfold default_row_rebuiltb in Hr. rewrite Em in Hr.
  destruct (msequence_create_genpoly (2 * g ms + 1)) as [x|]; [|discriminate].
  destruct (msequence_create _m (2 * g ms) 1) as [y|]; [|discriminate].
  apply andb_true_iff in Hr as [Hx Hy].
  apply msequence_eqb_eq in Hx, Hy. now subst.
Qed.

Lemma create_default_agrees_with_create_witness :
  msequence_create_genpoly 0x11D
  = Some {| m := 8; g := 0x8E; a := 0x80; n := 255; v := 0x80; b := 0 |}.
Proof.
  apply (proj1 (create_default_agrees_with_create 8
                  {| m := 8; g := 0x8E; a := 0x80; n := 255; v := 0x80; b := 0 |}
                  eq_refl)).
Defined.

(** X4. Reversing twice gives the seed back: the initial state of
    [create(m, g', a')], where [a'] is the initial state that
    [create(m, g, a)] stored, is [a] reduced to its low m bits. *)
Theorem create_seed_reversal_involutive (_m _g _g' _a : Z) (ms1 ms2 : msequence_s) :
  msequence_create _m _g _a = Some ms1 ->
  msequence_create _m _g' (a ms1) = Some ms2 ->
  a ms2 = _a mod 2 ^ _m.
Proof.
  intros H1 H2.
  assert (Hm : 2 <= _m <= 31).
  { destruct (Z.lt_ge_cases _m 2); [rewrite create_none in H1 by lia; discriminate|].
    destruct (Z.lt_ge_cases 31 _m); [rewrite create_none in H1 by lia; discriminate|].
    lia. }
  rewrite create_some in H1, H2 by exact Hm.
  injection H1 as <-. injection H2 as <-. cbn [a].
  apply Z.bits_inj'. intros i Hi. rewrite create_seed_bits by lia.
  destruct (Z.ltb_spec i _m) as [Hlt | Hge].
  - rewrite create_seed_bits by lia.
    destruct (Z.ltb_spec (_m - 1 - i) _m); [|lia].
    rewrite Z.mod_pow2_bits_low by lia. f_equal. lia.
  - rewrite Z.mod_pow2_bits_high by lia. reflexivity.
Qed.

Lemma create_seed_reversal_involutive_witness :
  a {| m := 5; g := 0x12; a := 0x16; n := 31; v := 0x16; b := 0 |}
  = 0xF6 mod 2 ^ 5.
Proof.
  apply (create_seed_reversal_involutive 5 0x25 0x25 0xF6
           {| m := 5; g := 0x12; a := 0x0D; n := 31; v := 0x0D; b := 0 |});
    reflexivity.
Defined.

(** ** Further properties of the operations *)

Lemma run_fields ops : forall ms,
  m (run ops ms) = m ms /\ g (run ops ms) = g ms /\
  a (run ops ms) = a ms /\ n (run ops ms) = n ms.
Proof.
  induction ops as [|o ops IH]; intros ms; [auto|].
  cbn [run fold_left].
  destruct (IH (apply_operation ms o)) as (Hm & Hg & Ha & Hn).
  destruct (apply_operation_fields ms o) as (Em & Eg & Ea & En).
  unfold run in *. repeat split; congruence.
Qed.

Lemma constructed_output_bit ms : constructed ms -> b ms = 0.
Proof.
  assert (Hc : forall _m _g _a r, msequence_create _m _g _a = Some r -> b r = 0).
  { intros _m _g _a r H.
    destruct (Z.le_gt_cases 2 _m) as [H2 | H2];
      [destruct (Z.le_gt_cases _m 31) as [H31 | H31]|];
      try (rewrite create_none in H by lia; discriminate).
    rewrite create_some in H by lia. now injection H as <-. }
  intros [_m _g _a r _ _ _ H | _g r Hg H | _m r _ H].
  - eauto.
  - destruct (Z.lt_ge_cases _g 4) as [Hlt | Hge].
    + rewrite create_genpoly_none in H by assumption. discriminate.
    + destruct (create_genpoly_some _g Hg Hge) as [_ He]. rewrite He in H. eauto.
  - apply (create_default_forallb default_row_checkb default_rows_static) in H.
    unfold default_row_checkb in H. rewrite !andb_true_iff, !Z.eqb_eq in H.
    tauto.
Qed.

(** X5. No sequence of advance, generateSymbol, reset and setState changes
    the length, the polynomial, the initial state or the mask of an
    object. *)
Theorem run_keeps_configuration (ops : list operation) (ms : msequence_s) :
  m (run ops ms) = m ms /\ g (run ops ms) = g ms /\
  a (run ops ms) = a ms /\ n (run ops ms) = n ms.
Proof. apply run_fields. Qed.

Lemma valid_output_bit ms : valid ms -> b ms = 0 \/ b ms = 1.
Proof.
  intros (ms0 & ops & Hc & _ & ->).
  assert (H0 : b ms0 = 0 \/ b ms0 = 1)
    by (left; now apply constructed_output_bit).
  clear Hc. revert ms0 H0. induction ops as [|o ops IH]; intros ms0 H0; [exact H0|].
  cbn [run fold_left]. apply IH.
  destruct o as [| _bps | | _a]; cbn [apply_operation].
  - apply parity_bit.
  - rewrite generate_symbol_state. destruct (Z.to_nat _bps) as [|k]; [exact H0|].
    clear H0. revert ms0. induction k as [|k IHk]; intros ms0.
    + apply parity_bit.
    + rewrite advance_seq_succ. cbn [snd]. apply IHk.
  - exact H0.
  - exact H0.
Qed.

(** X6. Whatever [set_state] wrote, one advance puts the register back
    within the mask: for every valid object the bit returned is 0 or 1,
    it is the output bit stored, and the new register lies in
    [0, sequenceLength]; the same holds after generateSymbol of at least
    one bit. *)
Theorem advance_restores_state_range (ms : msequence_s) (_bps : Z) :
  valid ms ->
  (fst (msequence_advance ms) = 0 \/ fst (msequence_advance ms) = 1) /\
  b (snd (msequence_advance ms)) = fst (msequence_advance ms) /\
  0 <= v (snd (msequence_advance ms)) <= n ms /\
  (1 <= _bps -> 0 <= v (snd (msequence_generate_symbol ms _bps)) <= n ms).
Proof.
  intros Hvalid. apply valid_well_formed in Hvalid as (Hm & Hn & _ & _).
  pose proof (advance_state_range ms Hm Hn) as Hr.
  split; [apply parity_bit|]. split; [reflexivity|]. split; [exact Hr|].
  intros Hk. rewrite generate_symbol_state.
  destruct (Z.to_nat _bps) as [|k] eqn:Ek; [lia|].
  rewrite advance_seq_succ. cbn [snd].
  destruct (advance_fields ms) as (Em & _ & _ & En). cbv zeta in Em, En.
  rewrite <- En. apply advance_seq_state_range; rewrite ?Em, ?En; assumption.
Qed.

Lemma advance_restores_state_range_witness :
  0 <= v (snd (msequence_advance
                 (msequence_set_state
                    {| m := 4; g := 9; a := 8; n := 15; v := 8; b := 0 |}
                    0xFFFFFFFF))) <= 15.
Proof.
  refine (proj1 (proj2 (proj2 (advance_restores_state_range
            (msequence_set_state
               {| m := 4; g := 9; a := 8; n := 15; v := 8; b := 0 |}
               0xFFFFFFFF) 1 _)))).
  exists {| m := 4; g := 9; a := 8; n := 15; v := 8; b := 0 |},
         [SetState 0xFFFFFFFF].
  split; [exact default_4_constructed|]. split; [|reflexivity].
  repeat constructor; unfold UINT_BITS; simpl; lia.
Defined.

(** X7. The output bit stored in a valid object is always 0 or 1. *)
Theorem output_bit_binary (ms : msequence_s) :
  valid ms -> b ms = 0 \/ b ms = 1.
Proof. apply valid_output_bit. Qed.

Lemma output_bit_binary_witness :
  b (run [Advance; SetState 5; GenerateSymbol 3; Advance]
       {| m := 4; g := 9; a := 8; n := 15; v := 8; b := 0 |}) = 0 \/
  b (run [Advance; SetState 5; GenerateSymbol 3; Advance]
       {| m := 4; g := 9; a := 8; n := 15; v := 8; b := 0 |}) = 1.
Proof.
  apply output_bit_binary.
  exists {| m := 4; g := 9; a := 8; n := 15; v := 8; b := 0 |},
         [Advance; SetState 5; GenerateSymbol 3; Advance].
  split; [exact default_4_constructed|]. split; [|reflexivity].
  repeat constructor; unfold UINT_BITS; simpl; lia.
Defined.

(** X8. A register value read with [get_state] and written back with
    [set_state] after any sequence of operations makes the object produce
    again the bits it produced from the point of the reading; writing it
    back at once changes nothing. *)
Theorem get_state_set_state_restores (ms : msequence_s)
  (ops : list operation) (k : nat) :
  msequence_set_state ms (msequence_get_state ms) = ms /\
  fst (advance_seq k (msequence_set_state (run ops ms) (msequence_get_state ms)))
  = fst (advance_seq k ms).
Proof.
  split; [destruct ms; reflexivity|].
  destruct (run_fields ops ms) as (_ & Hg & _ & Hn).
  apply advance_seq_ext; unfold msequence_set_state, msequence_get_state;
    cbn [v g n]; congruence.
Qed.

Lemma advance_seq_add j : forall k ms,
  advance_seq (j + k) ms
  = (fst (advance_seq j ms) ++ fst (advance_seq k (snd (advance_seq j ms))),
     snd (advance_seq k (snd (advance_seq j ms)))).
Proof.
  induction j as [|j IH]; intros k ms.
  - simpl. now destruct (advance_seq k ms).
  - change (S j + k)%nat with (S (j + k)).
    rewrite !advance_seq_succ, IH. reflexivity.
Qed.

Lemma value_fold_shift bits : forall s,
  fold_left (fun s bit => 2 * s + bit) bits s
  = s * 2 ^ Z.of_nat (length bits)
    + fold_left (fun s bit => 2 * s + bit) bits 0.
Proof.
  induction bits as [|x l IH]; intros s.
  - simpl. lia.
  - cbn [fold_left length]. rewrite (IH (2 * s + x)), (IH (2 * 0 + x)).
    rewrite Nat2Z.inj_succ, Z.pow_succ_r by lia. ring.
Qed.

Lemma generate_symbol_value ms j : 0 <= j <= UINT_BITS ->
  msequence_generate_symbol ms j
  = (msb_first_value (fst (advance_seq (Z.to_nat j) ms)),
     snd (advance_seq (Z.to_nat j) ms)).
Proof.
  intros Hj. unfold msequence_generate_symbol.
  rewrite generate_symbol_loop_advance_seq. f_equal.
  apply (shift_or_no_wrap _ (advance_seq_bits _ ms) 0 0).
  - simpl. lia.
  - lia.
  - rewrite advance_seq_length. unfold UINT_BITS in *. lia.
Qed.

(** X9. Generating [j] bits and then [k] bits is generating [j + k] bits at
    once, as long as the total fits the 32-bit result: the object ends
    the same and the long symbol is the first symbol shifted left by [k]
    plus the second. *)
Theorem generate_symbol_splits (ms : msequence_s) (j k : Z) :
  0 <= j -> 0 <= k -> j + k <= UINT_BITS ->
  let r1 := msequence_generate_symbol ms j in
  let r2 := msequence_generate_symbol (snd r1) k in
  msequence_generate_symbol ms (j + k) = (fst r1 * 2 ^ k + fst r2, snd r2).
Proof.
  intros Hj Hk Hjk. cbv zeta.
  rewrite (generate_symbol_value ms (j + k)) by lia.
  rewrite (generate_symbol_value ms j) by lia. cbn [fst snd].
  rewrite generate_symbol_value by lia. cbn [fst snd].
  rewrite Z2Nat.inj_add, advance_seq_add by lia. cbn [fst snd].
  f_equal. unfold msb_first_value. rewrite fold_left_app, value_fold_shift.
  rewrite advance_seq_length, Z2Nat.id by lia. reflexivity.
Qed.

Lemma generate_symbol_splits_witness :
  msequence_generate_symbol
    {| m := 4; g := 9; a := 8; n := 15; v := 8; b := 0 |} (3 + 4)
  = (7 * 2 ^ 4 + 10,
     {| m := 4; g := 9; a := 8; n := 15; v := 10; b := 0 |}).
Proof.
  apply (generate_symbol_splits
           {| m := 4; g := 9; a := 8; n := 15; v := 8; b := 0 |} 3 4);
    unfold UINT_BITS; lia.
Defined.

Lemma mod_shift_step P K x bit S : P <> 0 ->
  (K * ((2 * x + bit) mod P) + S) mod P = (2 * K * x + bit * K + S) mod P.
Proof.
  intros HP. rewrite Z.add_mod, Z.mul_mod_idemp_r, <- Z.add_mod by exact HP.
  f_equal. ring.
Qed.

Lemma advance_seq_state_value k : forall ms,
  2 <= m ms <= 31 -> n ms = 2 ^ m ms - 1 ->
  v (snd (advance_seq k ms)) mod 2 ^ m ms
  = (2 ^ Z.of_nat k * v ms + msb_first_value (fst (advance_seq k ms)))
    mod 2 ^ m ms.
Proof.
  induction k as [|k IH]; intros ms Hm Hn.
  - cbn [advance_seq fst snd]. unfold msb_first_value. cbn [fold_left].
    change (2 ^ Z.of_nat 0) with 1. f_equal. lia.
  - rewrite advance_seq_succ. cbn [fst snd].
    destruct (advance_fields ms) as (Em & _ & _ & En). cbv zeta in Em, En.
    specialize (IH (snd (msequence_advance ms))).
    rewrite Em, En in IH. rewrite (IH Hm Hn), (advance_state ms Hm Hn).
    unfold msb_first_value. cbn [fold_left].
    rewrite (value_fold_shift _ (2 * 0 + fst (msequence_advance ms))).
    rewrite advance_seq_length, Nat2Z.inj_succ, Z.pow_succ_r by lia.
    rewrite mod_shift_step by lia. f_equal. ring.
Qed.

Lemma advance_seq_state_range_pos k ms :
  2 <= m ms <= 31 -> n ms = 2 ^ m ms - 1 -> (0 < k)%nat ->
  0 <= v (snd (advance_seq k ms)) <= n ms.
Proof.
  intros Hm Hn Hk. destruct k as [|k]; [lia|].
  rewrite advance_seq_succ. cbn [snd].
  destruct (advance_fields ms) as (Em & _ & _ & En). cbv zeta in Em, En.
  pose proof (advance_state_range ms Hm Hn) as Hr.
  rewrite <- En. apply advance_seq_state_range; rewrite ?Em, ?En; assumption.
Qed.

(** X10. The register is the window of the last bits produced: after [k >= 1]
    advances it holds [2^k * v + s] reduced modulo [2^m], where [s] is the
    number formed by the [k] bits, first bit most significant.  Hence
    generateSymbol of exactly [m] bits returns the new content of the
    register. *)
Theorem register_is_output_window (ms : msequence_s) (k : nat) :
  valid ms -> (0 < k)%nat ->
  v (snd (advance_seq k ms))
  = (2 ^ Z.of_nat k * v ms + msb_first_value (fst (advance_seq k ms)))
    mod 2 ^ m ms /\
  fst (msequence_generate_symbol ms (m ms))
  = v (snd (msequence_generate_symbol ms (m ms))).
Proof.
  intros Hvalid Hk. apply valid_well_formed in Hvalid as (Hm & Hn & _ & _).
  assert (HP : 0 < 2 ^ m ms) by (apply Z.pow_pos_nonneg; lia).
  assert (Hgen : forall j, (0 < j)%nat ->
            v (snd (advance_seq j ms))
            = (2 ^ Z.of_nat j * v ms + msb_first_value (fst (advance_seq j ms)))
              mod 2 ^ m ms).
  { intros j Hj. rewrite <- advance_seq_state_value by assumption.
    symmetry. apply Z.mod_small.
    pose proof (advance_seq_state_range_pos j ms Hm Hn Hj). lia. }
  split; [now apply Hgen|].
  rewrite generate_symbol_value by (unfold UINT_BITS; lia). cbn [fst snd].
  rewrite Hgen by lia. rewrite Z2Nat.id by lia.
  rewrite Z.add_comm, (Z.mul_comm (2 ^ m ms)), Z.mod_add by lia.
  symmetry. apply Z.mod_small.
  pose proof (msb_first_value_range _
                (advance_seq_bits (Z.to_nat (m ms)) ms) 0 (Z.le_refl 0)) as Hr.
  cbv zeta in Hr. rewrite advance_seq_length, Z2Nat.id in Hr by lia.
  unfold msb_first_value. lia.
Qed.

Lemma register_is_output_window_witness :
  fst (msequence_generate_symbol
         {| m := 4; g := 9; a := 8; n := 15; v := 8; b := 0 |} 4)
  = v (snd (msequence_generate_symbol
              {| m := 4; g := 9; a := 8; n := 15; v := 8; b := 0 |} 4)).
Proof.
  apply (proj2 (register_is_output_window
                  {| m := 4; g := 9; a := 8; n := 15; v := 8; b := 0 |} 1
                  default_4_valid ltac:(lia))).
Defined.

Lemma land_low_bits x y k : 0 <= k -> 0 <= y < 2 ^ k ->
  Z.land (x mod 2 ^ k) y = Z.land x y.
Proof.
  intros Hk Hy. apply Z.bits_inj'. intros i Hi. rewrite !Z.land_spec.
  destruct (Z.lt_ge_cases i k) as [Hlt | Hge].
  - now rewrite Z.mod_pow2_bits_low by lia.
  - replace (Z.testbit y i) with false; [now rewrite !andb_false_r|].
    symmetry. rewrite <- (Z.mod_small y (2 ^ k)) by lia.
    apply Z.mod_pow2_bits_high. lia.
Qed.

(** X11. When the polynomial lies within the register width, as the derived
    and the table constructors guarantee, the bits of a [set_state]
    argument at positions m and above have no effect: the bits produced
    afterwards, and the register after at least one advance, are those
    obtained from the argument reduced to its low m bits. *)
Theorem set_state_high_bits_ignored (ms : msequence_s) (_a : Z) (k : nat) :
  valid ms -> 0 <= g ms < 2 ^ m ms ->
  let ms1 := msequence_set_state ms _a in
  let ms2 := msequence_set_state ms (_a mod 2 ^ m ms) in
  fst (advance_seq k ms1) = fst (advance_seq k ms2) /\
  ((0 < k)%nat -> snd (advance_seq k ms1) = snd (advance_seq k ms2)).
Proof.
  intros Hvalid Hg. apply valid_well_formed in Hvalid as (Hm & Hn & _ & _).
  cbv zeta.
  assert (HP : 0 < 2 ^ m ms) by (apply Z.pow_pos_nonneg; lia).
  assert (Hstep : msequence_advance (msequence_set_state ms _a)
                  = msequence_advance (msequence_set_state ms (_a mod 2 ^ m ms))).
  { unfold msequence_advance, msequence_set_state, liquid_bdotprod.
    cbn [m g a n v b].
    rewrite (land_low_bits _a (g ms) (m ms)) by lia.
    f_equal. f_equal. rewrite Hn.
    rewrite !masked_shift by (try apply parity_bit; unfold UINT_BITS; lia).
    rewrite (Z.add_mod (2 * _a)), (Z.add_mod (2 * (_a mod 2 ^ m ms))) by lia.
    now rewrite Z.mul_mod_idemp_r by lia. }
  destruct k as [|k]; [split; [reflexivity | lia]|].
  rewrite !advance_seq_succ, Hstep. split; [reflexivity|]. intros _. reflexivity.
Qed.

Lemma set_state_high_bits_ignored_witness :
  fst (advance_seq 9 (msequence_set_state
         {| m := 4; g := 9; a := 8; n := 15; v := 8; b := 0 |} 0xABCD))
  = fst (advance_seq 9 (msequence_set_state
         {| m := 4; g := 9; a := 8; n := 15; v := 8; b := 0 |}
         (0xABCD mod 2 ^ 4))).
Proof.
  apply (set_state_high_bits_ignored
           {| m := 4; g := 9; a := 8; n := 15; v := 8; b := 0 |} 0xABCD 9
           default_4_valid).
  simpl. lia.
Defined.

(** ** The register as a shift register: no two states merge *)

Lemma shift_bit_bits x bit i : (bit = 0 \/ bit = 1) -> 0 <= i ->
  Z.testbit (Z.lor (Z.shiftl x 1) bit) i
  = if i =? 0 then bit =? 1 else Z.testbit x (i - 1).
Proof.
  intros Hb Hi. rewrite Z.lor_spec.
  destruct (Z.eqb_spec i 0) as [-> | Hne].
  - rewrite Z.shiftl_spec_low by lia. destruct Hb as [-> | ->]; reflexivity.
  - rewrite Z.shiftl_spec by lia.
    destruct Hb as [-> | ->]; [rewrite Z.bits_0 | rewrite testbit_one by lia];
      apply orb_false_r.
Qed.

Lemma advance_state_bits ms i :
  2 <= m ms <= 31 -> n ms = 2 ^ m ms - 1 -> 0 <= i ->
  Z.testbit (v (snd (msequence_advance ms))) i
  = if i <? m ms
    then if i =? 0 then fst (msequence_advance ms) =? 1
         else Z.testbit (v ms) (i - 1)
    else false.
Proof.
  intros Hm Hn Hi. rewrite (advance_state ms Hm Hn).
  assert (Hb : fst (msequence_advance ms) = 0 \/ fst (msequence_advance ms) = 1)
    by apply parity_bit.
  rewrite <- (lor_bit_add _ _ Hb).
  destruct (Z.ltb_spec i (m ms)) as [Hlt | Hge].
  - rewrite Z.mod_pow2_bits_low by lia. now apply shift_bit_bits.
  - apply Z.mod_pow2_bits_high. lia.
Qed.

Lemma xor_bits_lxor k x y :
  xor_bits k (Z.lxor x y) = xorb (xor_bits k x) (xor_bits k y).
Proof.
  induction k as [|k IH]; [reflexivity|].
  cbn [xor_bits]. rewrite IH, Z.lxor_spec.
  destruct (Z.testbit x (Z.of_nat k)), (Z.testbit y (Z.of_nat k)),
    (xor_bits k x), (xor_bits k y); reflexivity.
Qed.

Lemma parity_double t : parity (2 * t) = parity t.
Proof. destruct t; reflexivity. Qed.

Lemma parity_pow2 j : 0 <= j -> parity (2 ^ j) = 1.
Proof.
  revert j. apply natlike_ind; [reflexivity|].
  intros j Hj IH. now rewrite Z.pow_succ_r, parity_double.
Qed.

Lemma land_pow2_set j y : 0 <= j -> Z.testbit y j = true ->
  Z.land (2 ^ j) y = 2 ^ j.
Proof.
  intros Hj Hy. apply Z.bits_inj'. intros i Hi.
  rewrite Z.land_spec, Z.pow2_bits_eqb by lia.
  destruct (Z.eqb_spec j i) as [-> | Hne]; [now rewrite Hy | reflexivity].
Qed.

Lemma testbit_high x k i : 0 <= x < 2 ^ k -> k <= i -> Z.testbit x i = false.
Proof.
  intros Hx Hi. rewrite <- (Z.mod_small x (2 ^ k)) by lia.
  apply Z.mod_pow2_bits_high.
  assert (0 <= k); [|lia].
  destruct (Z.le_gt_cases 0 k); [assumption|].
  rewrite Z.pow_neg_r in Hx by lia. lia.
Qed.

Lemma advance_state_injective ms1 ms2 :
  2 <= m ms1 <= 31 -> m ms2 = m ms1 -> g ms2 = g ms1 ->
  n ms1 = 2 ^ m ms1 - 1 -> n ms2 = n ms1 ->
  Z.testbit (g ms1) (m ms1 - 1) = true ->
  0 <= v ms1 <= n ms1 -> 0 <= v ms2 <= n ms1 ->
  v (snd (msequence_advance ms1)) = v (snd (msequence_advance ms2)) ->
  v ms1 = v ms2.
Proof.
  intros Hm Em Eg Hn En Htop Hv1 Hv2 Heq.
  assert (Hm2 : 2 <= m ms2 <= 31) by lia.
  assert (Hn2 : n ms2 = 2 ^ m ms2 - 1) by (rewrite Em; lia).
  assert (Hbits : forall i, 0 <= i ->
            Z.testbit (v (snd (msequence_advance ms1))) i
            = Z.testbit (v (snd (msequence_advance ms2))) i)
    by (intros; now rewrite Heq).
  assert (Hb : fst (msequence_advance ms1) = fst (msequence_advance ms2)).
  { specialize (Hbits 0 (Z.le_refl 0)).
    rewrite !advance_state_bits in Hbits by lia. rewrite Em in Hbits.
    destruct (Z.ltb_spec 0 (m ms1)); [|lia]. cbn in Hbits.
    destruct (parity_bit (Z.land (v ms1) (g ms1))) as [H1 | H1],
             (parity_bit (Z.land (v ms2) (g ms2))) as [H2 | H2];
      unfold msequence_advance, liquid_bdotprod in *; cbn [fst] in *;
      rewrite H1, H2 in *; try reflexivity; discriminate. }
  assert (Hlow : forall i, 0 <= i < m ms1 - 1 ->
            Z.testbit (v ms1) i = Z.testbit (v ms2) i).
  { intros i Hi. specialize (Hbits (i + 1) ltac:(lia)).
    rewrite !advance_state_bits in Hbits by lia. rewrite Em in Hbits.
    destruct (Z.ltb_spec (i + 1) (m ms1)); [|lia].
    destruct (Z.eqb_spec (i + 1) 0); [lia|].
    now replace (i + 1 - 1) with i in Hbits by lia. }
  assert (Hhigh : forall x i, 0 <= x <= n ms1 -> m ms1 <= i ->
            Z.testbit x i = false).
  { intros x i Hx Hi. apply (testbit_high x (m ms1)); lia. }
  assert (Htopbit : Z.testbit (v ms1) (m ms1 - 1) = Z.testbit (v ms2) (m ms1 - 1)).
  { destruct (Bool.bool_dec (Z.testbit (v ms1) (m ms1 - 1))
                            (Z.testbit (v ms2) (m ms1 - 1))) as [|Hne];
      [assumption | exfalso].
    assert (Hd : Z.lxor (v ms1) (v ms2) = 2 ^ (m ms1 - 1)).
    { apply Z.bits_inj'. intros i Hi.
      rewrite Z.lxor_spec, Z.pow2_bits_eqb by lia.
      destruct (Z.eqb_spec (m ms1 - 1) i) as [<- | Hni].
      - revert Hne.
        destruct (Z.testbit (v ms1) (m ms1 - 1)),
                 (Z.testbit (v ms2) (m ms1 - 1)); cbn; congruence.
      - destruct (Z.lt_ge_cases i (m ms1 - 1)).
        + rewrite Hlow by lia. apply xorb_nilpotent.
        + now rewrite !Hhigh by lia. }
    assert (Hl : Z.lxor (Z.land (v ms1) (g ms1)) (Z.land (v ms2) (g ms1))
                 = 2 ^ (m ms1 - 1)).
    { rewrite <- (land_pow2_set (m ms1 - 1) (g ms1)) by (lia || assumption).
      rewrite <- Hd. apply Z.bits_inj'. intros i Hi.
      rewrite Z.lxor_spec, !Z.land_spec, Z.lxor_spec.
      destruct (Z.testbit (v ms1) i), (Z.testbit (v ms2) i),
        (Z.testbit (g ms1) i); reflexivity. }
    pose proof (mask_is_uint (m ms1) Hm) as Hmask.
    assert (Hu1 : is_uint (Z.land (v ms1) (g ms1)))
      by (apply land_is_uint; unfold is_uint; lia).
    assert (Hu2 : is_uint (Z.land (v ms2) (g ms1)))
      by (apply land_is_uint; unfold is_uint; lia).
    assert (Hp : parity (2 ^ (m ms1 - 1)) = 1) by (apply parity_pow2; lia).
    rewrite <- Hl, parity_xor_reduction, xor_bits_lxor in Hp.
    - unfold msequence_advance, liquid_bdotprod in Hb. cbn [fst] in Hb.
      rewrite Eg in Hb.
      rewrite (parity_xor_reduction _ Hu1), (parity_xor_reduction _ Hu2) in Hb.
      destruct (xor_bits 32 (Z.land (v ms1) (g ms1))),
               (xor_bits 32 (Z.land (v ms2) (g ms1))); discriminate.
    - rewrite Hl. unfold is_uint.
      assert (0 < 2 ^ (m ms1 - 1)) by (apply Z.pow_pos_nonneg; lia).
      assert (2 ^ (m ms1 - 1) <= 2 ^ 31) by (apply Z.pow_le_mono_r; lia).
      rewrite pow2_32. change (2 ^ 31) with 2147483648 in *. lia. }
  apply Z.bits_inj'. intros i Hi.
  destruct (Z.lt_ge_cases i (m ms1 - 1)) as [Hlt | Hge]; [now apply Hlow|].
  destruct (Z.eq_dec i (m ms1 - 1)) as [-> | Hne]; [exact Htopbit|].
  now rewrite !Hhigh by lia.
Qed.

(** X12. With the top tap of the stored polynomial set (bit [m-1]), the step
    of the register is one-to-one on the states within the mask: two
    different register values lead to different next registers. *)
Theorem advance_one_to_one (ms : msequence_s) (x y : Z) :
  valid ms -> Z.testbit (g ms) (m ms - 1) = true ->
  0 <= x <= n ms -> 0 <= y <= n ms -> x <> y ->
  v (snd (msequence_advance (msequence_set_state ms x)))
  <> v (snd (msequence_advance (msequence_set_state ms y))).
Proof.
  intros Hvalid Htop Hx Hy Hxy Heq. apply Hxy.
  apply valid_well_formed in Hvalid as (Hm & Hn & _ & _).
  apply (advance_state_injective (msequence_set_state ms x)
                                 (msequence_set_state ms y));
    unfold msequence_set_state; cbn [m g n v]; auto.
Qed.

Lemma advance_one_to_one_witness :
  v (snd (msequence_advance (msequence_set_state
       {| m := 4; g := 9; a := 8; n := 15; v := 8; b := 0 |} 5)))
  <> v (snd (msequence_advance (msequence_set_state
       {| m := 4; g := 9; a := 8; n := 15; v := 8; b := 0 |} 13))).
Proof.
  apply (advance_one_to_one
           {| m := 4; g := 9; a := 8; n := 15; v := 8; b := 0 |} 5 13
           default_4_valid); try reflexivity; simpl; lia.
Defined.

Lemma advance_nonzero ms :
  2 <= m ms <= 31 -> n ms = 2 ^ m ms - 1 ->
  Z.testbit (g ms) (m ms - 1) = true -> 0 < v ms <= n ms ->
  0 < v (snd (msequence_advance ms)) <= n ms.
Proof.
  intros Hm Hn Htop Hv. pose proof (advance_state_range ms Hm Hn) as Hr.
  enough (v (snd (msequence_advance ms)) <> 0) by lia.
  intros H0.
  assert (Hz : v (snd (msequence_advance (msequence_set_state ms 0))) = 0)
    by reflexivity.
  assert (Hmask : 0 <= n ms)
    by (assert (0 < 2 ^ m ms) by (apply Z.pow_pos_nonneg; lia); lia).
  assert (E : v ms = v (msequence_set_state ms 0)).
  { apply advance_state_injective; unfold msequence_set_state; cbn [m g n v];
      auto; try lia. }
  cbn in E. lia.
Qed.

Lemma advance_seq_nonzero k : forall ms,
  2 <= m ms <= 31 -> n ms = 2 ^ m ms - 1 ->
  Z.testbit (g ms) (m ms - 1) = true -> 0 < v ms <= n ms ->
  0 < v (snd (advance_seq k ms)) <= n ms.
Proof.
  induction k as [|k IH]; intros ms Hm Hn Htop Hv; [exact Hv|].
  rewrite advance_seq_succ. cbn [snd].
  destruct (advance_fields ms) as (Em & Eg & _ & En). cbv zeta in Em, Eg, En.
  pose proof (advance_nonzero ms Hm Hn Htop Hv) as H1.
  rewrite <- En. apply IH; rewrite ?Em, ?Eg, ?En; assumption.
Qed.

Lemma run_nonzero ops : forall ms,
  2 <= m ms <= 31 -> n ms = 2 ^ m ms - 1 ->
  Z.testbit (g ms) (m ms - 1) = true -> 0 < a ms <= n ms ->
  Forall not_set_state ops -> 0 < v ms <= n ms ->
  0 < v (run ops ms) <= n ms.
Proof.
  induction ops as [|o ops IH]; intros ms Hm Hn Htop Ha Hops Hv; [exact Hv|].
  inversion Hops as [|? ? Ho Hrest]; subst.
  destruct (apply_operation_fields ms o) as (Em & Eg & Ea & En).
  cbv zeta in Em, Eg, Ea, En.
  cbn [run fold_left]. rewrite <- En.
  apply (IH (apply_operation ms o)); rewrite ?Em, ?Eg, ?Ea, ?En; try assumption.
  destruct o as [| _bps | | _a]; cbn [apply_operation].
  - now apply advance_nonzero.
  - rewrite generate_symbol_state. now apply advance_seq_nonzero.
  - exact Ha.
  - destruct Ho.
Qed.

(** X13. A generator whose stored polynomial has its top tap set and whose
    initial state is not zero never reaches the all-zero register through
    advance, generateSymbol and reset: the register stays within
    [1, sequenceLength].  Only [set_state] can lock it. *)
Theorem register_never_zero (ms0 : msequence_s) (ops : list operation) :
  constructed ms0 ->
  Z.testbit (g ms0) (m ms0 - 1) = true -> a ms0 <> 0 ->
  Forall not_set_state ops ->
  0 < v (run ops ms0) <= n ms0.
Proof.
  intros Hc Htop Ha Hops.
  destruct (constructed_facts ms0 Hc) as (Hm & Hn & Hv & Hav & _).
  apply run_nonzero; try assumption; lia.
Qed.

Lemma register_never_zero_witness :
  0 < v (run [Advance; GenerateSymbol 40; Reset; Advance]
           {| m := 4; g := 9; a := 8; n := 15; v := 8; b := 0 |}) <= 15.
Proof.
  apply (register_never_zero
           {| m := 4; g := 9; a := 8; n := 15; v := 8; b := 0 |}
           [Advance; GenerateSymbol 40; Reset; Advance] default_4_constructed).
  - reflexivity.
  - simpl. lia.
  - repeat constructor.
Defined.

(** X14. The derived and the table constructors always return a generator of
    that kind: the top tap of the stored polynomial is set and the
    initial state is [2^(m-1)]. *)
Theorem derived_and_default_have_top_tap (ms : msequence_s) :
  (exists _g, is_uint _g /\ msequence_create_genpoly _g = Some ms) \/
  (exists _m, msequence_create_default _m = Some ms) ->
  Z.testbit (g ms) (m ms - 1) = true /\ a ms = 2 ^ (m ms - 1) /\ a ms <> 0.
Proof.
  assert (Hnz : forall k, 0 <= k -> 2 ^ k <> 0)
    by (intros k Hk; assert (0 < 2 ^ k) by (apply Z.pow_pos_nonneg; lia); lia).
  intros [(_g & Hg & H) | (_m & H)].
  - destruct (Z.lt_ge_cases _g 4) as [Hlt | Hge].
    + rewrite create_genpoly_none in H by assumption. discriminate.
    + destruct (create_genpoly_some _g Hg Hge) as [Hl He].
      rewrite He, create_some in H by exact Hl. injection H as <-.
      cbn [m g a].
      assert (Ha : fst (create_seed_loop (Z.to_nat (Z.log2 _g)) 0 1)
                   = 2 ^ (Z.log2 _g - 1)).
      { apply Z.bits_inj'. intros i Hi.
        rewrite create_seed_bits, Z.pow2_bits_eqb by lia.
        destruct (Z.ltb_spec i (Z.log2 _g)) as [Hlt | Hge'].
        - destruct (Z.eqb_spec (Z.log2 _g - 1) i) as [<- | Hne].
          + now replace (Z.log2 _g - 1 - (Z.log2 _g - 1)) with 0 by lia.
          + apply testbit_one. lia.
        - destruct (Z.eqb_spec (Z.log2 _g - 1) i); [lia | reflexivity]. }
      split; [|split].
      * rewrite Z.shiftr_spec by lia.
        replace (Z.log2 _g - 1 + 1) with (Z.log2 _g) by lia.
        apply Z.bit_log2. lia.
      * exact Ha.
      * rewrite Ha. apply Hnz. lia.
  - pose proof (create_default_forallb well_formedb eq_refl _m ms H) as Hwf.
    apply well_formedb_spec in Hwf as (Hm & _).
    apply (create_default_forallb default_row_checkb default_rows_static) in H.
    unfold default_row_checkb in H. rewrite !andb_true_iff, !Z.eqb_eq in H.
    destruct H as ((Ha & _) & Ht). split; [exact Ht|]. split; [exact Ha|].
    rewrite Ha. apply Hnz. lia.
Qed.

Lemma derived_and_default_have_top_tap_witness :
  Z.testbit 9 (4 - 1) = true /\ 8 = 2 ^ (4 - 1) /\ 8 <> 0.
Proof.
  apply (derived_and_default_have_top_tap
           {| m := 4; g := 9; a := 8; n := 15; v := 8; b := 0 |}).
  left. exists 0x13. split; [unfold is_uint, UINT_BITS; lia | reflexivity].
Defined.

(** ** Filling a binary sequence *)

Lemma init_msequence_loop_advance_seq (B : Type) (push : B -> Z -> B) k :
  forall bs ms,
  init_msequence_loop B push k bs ms
  = (fold_left push (fst (advance_seq k ms)) bs, snd (advance_seq k ms)).
Proof.
  induction k as [|k IH]; intros bs ms; [reflexivity|].
  rewrite advance_seq_succ. cbn [init_msequence_loop fst snd fold_left].
  destruct (msequence_advance ms) as [bit ms1]. cbn [fst snd]. apply IH.
Qed.

(** X15. [bsequence_init_msequence] resets the buffer and then pushes, in the
    order of production, the bits of exactly [2^m - 1] sequential
    advances, each 0 or 1, whatever the buffer implementation; the
    generator is left as those advances leave it. *)
Theorem init_msequence_pushes_one_period (B : Type) (reset : B -> B)
  (push : B -> Z -> B) (bs : B) (ms : msequence_s) :
  valid ms ->
  let bits := fst (advance_seq (Z.to_nat (n ms)) ms) in
  bsequence_init_msequence B reset push bs ms
  = (fold_left push bits (reset bs), snd (advance_seq (Z.to_nat (n ms)) ms)) /\
  length bits = Z.to_nat (2 ^ m ms - 1) /\
  Forall (fun x => x = 0 \/ x = 1) bits.
Proof.
  intros Hvalid. apply valid_well_formed in Hvalid as (_ & Hn & _ & _).
  cbv zeta. split; [|split].
  - unfold bsequence_init_msequence. apply init_msequence_loop_advance_seq.
  - now rewrite advance_seq_length, Hn.
  - apply advance_seq_bits.
Qed.

Lemma init_msequence_pushes_one_period_witness :
  fst (bsequence_init_msequence (list Z) (fun _ => [])
         (fun l x => l ++ [x]) [1; 1]
         {| m := 3; g := 5; a := 4; n := 7; v := 4; b := 0 |})
  = [1; 1; 1; 0; 1; 0; 0].
Proof.
  assert (Hv : valid {| m := 3; g := 5; a := 4; n := 7; v := 4; b := 0 |}).
  { exists {| m := 3; g := 5; a := 4; n := 7; v := 4; b := 0 |}, [].
    split; [|split; [constructor | reflexivity]].
    apply (constructed_default 3); [|reflexivity].
    unfold is_uint. rewrite pow2_32. lia. }
  rewrite (proj1 (init_msequence_pushes_one_period (list Z) (fun _ => [])
                    (fun l x => l ++ [x]) [1; 1] _ Hv)).
  reflexivity.
Defined.

(** X16. For a generator of the default table the fill is repeatable: it
    leaves the register where it was, so filling again, from any buffer
    that resets to the same buffer, gives the same buffer. *)
Theorem init_msequence_default_repeatable (B : Type) (reset : B -> B)
  (push : B -> Z -> B) (bs bs' : B) (_m : Z) (ms : msequence_s) :
  msequence_create_default _m = Some ms ->
  let r := bsequence_init_msequence B reset push bs ms in
  v (snd r) = v ms /\
  (reset bs' = reset bs ->
   fst (bsequence_init_msequence B reset push bs' (snd r)) = fst r).
Proof.
  intros H. cbv zeta.
  pose proof (create_default_forallb well_formedb eq_refl _m ms H) as Hwf.
  apply well_formedb_spec in Hwf as (Hm & Hn & _).
  pose proof (create_default_forallb full_period_checkb
                default_rows_full_period _m ms H) as Hchk.
  destruct (full_period_checkb_sound ms Hm Hn Hchk)
    as (_ & Hret & _ & _ & Hrep & _).
  unfold bsequence_init_msequence.
  rewrite !init_msequence_loop_advance_seq. cbn [fst snd].
  split; [exact Hret|]. intros Hreset.
  destruct (advance_seq_fields (Z.to_nat (n ms)) ms) as (_ & _ & _ & En).
  cbv zeta in En. rewrite En, Hrep, Hreset. reflexivity.
Qed.

Lemma init_msequence_default_repeatable_witness :
  v (snd (bsequence_init_msequence (list Z) (fun _ => [])
            (fun l x => l ++ [x]) []
            {| m := 3; g := 5; a := 4; n := 7; v := 4; b := 0 |}))
  = 4.
Proof.
  apply (proj1 (init_msequence_default_repeatable (list Z) (fun _ => [])
                  (fun l x => l ++ [x]) [] [] 3
                  {| m := 3; g := 5; a := 4; n := 7; v := 4; b := 0 |}
                  eq_refl)).
Defined.

(** ** Printing *)

Lemma land_1_mod2 x : Z.land x 1 = x mod 2.
Proof. change 1 with (Z.ones 1). now rewrite Z.land_ones by lia. Qed.

Lemma print_bits_loop_value k : forall i acc _m x,
  0 <= i -> i + Z.of_nat k = _m -> _m <= UINT_BITS ->
  String.length (print_bits_loop k i _m x) = k /\
  binary_value acc (print_bits_loop k i _m x)
  = acc * 2 ^ Z.of_nat k + x mod 2 ^ Z.of_nat k /\
  (forall c, In c (list_ascii_of_string (print_bits_loop k i _m x)) ->
     c = "0"%char \/ c = "1"%char).
Proof.
  induction k as [|k IH]; intros i acc _m x Hi Hik Hm.
  - cbn. rewrite Z.mod_1_r. split; [reflexivity|]. split; [lia|]. intros c [].
  - cbn [print_bits_loop String.length binary_value list_ascii_of_string].
    assert (Hu : forall z, 0 <= z <= _m -> uint z = z).
    { intros z Hz. apply uint_small. unfold is_uint, UINT_BITS in *. lia. }
    rewrite (Hu (_m - i - 1)), (Hu (i + 1)) by lia.
    destruct (IH (i + 1) (2 * acc
                + (if Ascii.eqb
                        (if Z.land (Z.shiftr x (_m - i - 1)) 1 =? 0
                         then "0"%char else "1"%char) "1"%char
                   then 1 else 0)) _m x) as (Hlen & Hval & Hch); try lia.
    split; [now rewrite Hlen|]. split.
    + rewrite Hval. replace (_m - i - 1) with (Z.of_nat k) by lia.
      rewrite land_1_mod2, Z.shiftr_div_pow2 by lia.
      rewrite Nat2Z.inj_succ.
      replace (2 ^ Z.succ (Z.of_nat k)) with (2 ^ Z.of_nat k * 2)
        by (rewrite Z.pow_succ_r by lia; ring).
      rewrite (Z.rem_mul_r x (2 ^ Z.of_nat k) 2)
        by (try apply Z.pow_nonzero; lia).
      pose proof (Z.mod_pos_bound (x / 2 ^ Z.of_nat k) 2 ltac:(lia)) as Hb.
      destruct (Z.eqb_spec ((x / 2 ^ Z.of_nat k) mod 2) 0) as [E | E].
      * cbv iota. change (Ascii.eqb "0" "1") with false. cbv iota.
        rewrite E. ring.
      * cbv iota. change (Ascii.eqb "1" "1") with true. cbv iota.
        replace ((x / 2 ^ Z.of_nat k) mod 2) with 1 by lia. ring.
    + intros c [<- | Hc]; [|now apply Hch].
      destruct (Z.land (Z.shiftr x (_m - i - 1)) 1 =? 0); auto.
Qed.

(** X17. [msequence_print] writes the register and the polynomial as [m]
    binary digits each, most significant digit first: read back as a
    binary numeral, the register line gives the register reduced to its
    low [m] bits, which is the register itself whenever it is within the
    mask, and the polynomial line gives the polynomial likewise; the
    status returned is [LIQUID_OK]. *)
Theorem print_shows_register_and_polynomial (ms : msequence_s) :
  valid ms ->
  exists reg poly : string,
    msequence_print ms
    = (("msequence: m=" ++ print_unsigned (m ms)
         ++ " (n=" ++ print_unsigned (n ms) ++ "):" ++ newline
         ++ "    shift register: " ++ reg ++ newline
         ++ "    generator poly: " ++ poly ++ newline)%string, LIQUID_OK) /\
    String.length reg = Z.to_nat (m ms) /\
    String.length poly = Z.to_nat (m ms) /\
    (forall c, In c (list_ascii_of_string reg) ->
       c = "0"%char \/ c = "1"%char) /\
    (forall c, In c (list_ascii_of_string poly) ->
       c = "0"%char \/ c = "1"%char) /\
    binary_value 0 reg = v ms mod 2 ^ m ms /\
    binary_value 0 poly = g ms mod 2 ^ m ms /\
    (0 <= v ms <= n ms -> binary_value 0 reg = v ms).
Proof.
  intros Hvalid. apply valid_well_formed in Hvalid as (Hm & Hn & _ & _).
  exists (print_bits (m ms) (v ms)), (print_bits (m ms) (g ms)).
  assert (Hpb : forall x,
            String.length (print_bits (m ms) x) = Z.to_nat (m ms) /\
            binary_value 0 (print_bits (m ms) x) = x mod 2 ^ m ms /\
            (forall c, In c (list_ascii_of_string (print_bits (m ms) x)) ->
               c = "0"%char \/ c = "1"%char)).
  { intros x. unfold print_bits.
    destruct (print_bits_loop_value (Z.to_nat (m ms)) 0 0 (m ms) x)
      as (Hl & Hv & Hc); try (unfold UINT_BITS; lia).
    rewrite Z2Nat.id in Hv by lia. auto. }
  destruct (Hpb (v ms)) as (Hl1 & Hv1 & Hc1).
  destruct (Hpb (g ms)) as (Hl2 & Hv2 & Hc2).
  repeat split; auto.
  intros Hr. rewrite Hv1. apply Z.mod_small. lia.
Qed.

Lemma print_shows_register_and_polynomial_witness :
  exists reg poly : string,
    fst (msequence_print {| m := 4; g := 9; a := 8; n := 15; v := 8; b := 0 |})
    = ("msequence: m=4 (n=15):" ++ newline
        ++ "    shift register: " ++ reg ++ newline
        ++ "    generator poly: " ++ poly ++ newline)%string /\
    String.length reg = 4%nat /\ binary_value 0 reg = 8.
Proof.
  destruct (print_shows_register_and_polynomial _ default_4_valid)
    as (reg & poly & Hp & Hl & _ & _ & _ & _ & _ & Hr).
  exists reg, poly. split; [now rewrite Hp|].
  split; [exact Hl|]. apply Hr. simpl. lia.
Defined.

(** ** One period of a default generator: balance and the states visited *)

Lemma advance_seq_last i ms :
  snd (advance_seq (S i) ms) = snd (msequence_advance (snd (advance_seq i ms))).
Proof.
  rewrite <- Nat.add_1_r, advance_seq_add. cbn [snd].
  now rewrite advance_seq_succ.
Qed.

Lemma returns_within_sound k : forall target ms,
  returns_within k target ms = false ->
  forall j, (0 < j <= k)%nat -> v (snd (advance_seq j ms)) <> target.
Proof.
  induction k as [|k IH]; intros target ms Hchk j Hj; [lia|].
  cbn [returns_within] in Hchk.
  destruct (Z.eqb_spec (v (snd (msequence_advance ms))) target) as [|Hne];
    [discriminate|].
  destruct j as [|j]; [lia|]. rewrite advance_seq_succ. cbn [snd].
  destruct j as [|j]; [exact Hne|].
  apply (IH target _ Hchk). lia.
Qed.

Lemma default_rows_balance :
  forallb balance_checkb (skipn 2 msequence_default) = true.
Proof. vm_compute. reflexivity. Qed.

(** X18. Over one period a default generator is balanced as a maximal-length
    sequence is: of the [2^m - 1] bits, [2^(m-1)] are ones and
    [2^(m-1) - 1] are zeros. *)
Theorem default_period_balance (_m : Z) (ms : msequence_s) :
  msequence_create_default _m = Some ms ->
  let bits := fst (advance_seq (Z.to_nat (n ms)) ms) in
  Z.of_nat (count_occ Z.eq_dec bits 1) = 2 ^ (_m - 1) /\
  Z.of_nat (count_occ Z.eq_dec bits 0) = 2 ^ (_m - 1) - 1.
Proof.
  intros H. destruct (create_default_row _m ms H) as (_ & Em & _).
  apply (create_default_forallb balance_checkb default_rows_balance) in H.
  unfold balance_checkb in H. cbv zeta in *.
  rewrite !andb_true_iff, !Z.eqb_eq, Em in H. tauto.
Qed.

Lemma default_period_balance_witness :
  Z.of_nat (count_occ Z.eq_dec
              (fst (advance_seq (Z.to_nat 15)
                      {| m := 4; g := 9; a := 8; n := 15; v := 8; b := 0 |})) 1)
  = 2 ^ (4 - 1).
Proof.
  apply (proj1 (default_period_balance 4
                  {| m := 4; g := 9; a := 8; n := 15; v := 8; b := 0 |}
                  eq_refl)).
Defined.

Lemma orbit_distinct ms k :
  2 <= m ms <= 31 -> n ms = 2 ^ m ms - 1 ->
  Z.testbit (g ms) (m ms - 1) = true -> 0 <= v ms <= n ms ->
  (forall j, (0 < j < k)%nat -> v (snd (advance_seq j ms)) <> v ms) ->
  forall i j, (i < j < k)%nat ->
    v (snd (advance_seq i ms)) <> v (snd (advance_seq j ms)).
Proof.
  intros Hm Hn Htop Hv Hfirst. induction i as [|i IH]; intros j Hj.
  - intros E. apply (Hfirst j); [lia | now rewrite <- E].
  - destruct j as [|j]; [lia|]. rewrite !advance_seq_last. intros E.
    apply (IH j); [lia|].
    destruct (advance_seq_fields i ms) as (Emi & Egi & _ & Eni).
    destruct (advance_seq_fields j ms) as (Emj & Egj & _ & Enj).
    cbv zeta in *.
    apply advance_state_injective; rewrite ?Emi, ?Egi, ?Eni, ?Emj, ?Egj, ?Enj;
      auto using advance_seq_state_range.
Qed.

(** X19. Over one period a default generator takes every register value from
    1 to [2^m - 1] exactly once: the registers before the first
    [2^m - 1] advances are pairwise different, the register does not
    come back to its initial value earlier, and every non-zero value
    within the mask is among them. *)
Theorem default_visits_every_state (_m : Z) (ms : msequence_s) :
  msequence_create_default _m = Some ms ->
  let k := Z.to_nat (n ms) in
  (forall j, (0 < j < k)%nat -> v (snd (advance_seq j ms)) <> v ms) /\
  (forall i j, (i < j < k)%nat ->
     v (snd (advance_seq i ms)) <> v (snd (advance_seq j ms))) /\
  (forall x, 1 <= x <= n ms ->
     exists j, (j < k)%nat /\ v (snd (advance_seq j ms)) = x).
Proof.
  intros H. cbv zeta.
  pose proof (create_default_forallb well_formedb eq_refl _m ms H) as Hwf.
  apply well_formedb_spec in Hwf as (Hm & Hn & Hv & Hav & _).
  pose proof (create_default_forallb default_row_checkb
                default_rows_static _m ms H) as Hst.
  unfold default_row_checkb in Hst.
  rewrite !andb_true_iff, !Z.eqb_eq in Hst. destruct Hst as ((Ha & _) & Htop).
  pose proof (create_default_forallb balance_checkb default_rows_balance
                _m ms H) as Hb.
  unfold balance_checkb in Hb. cbv zeta in Hb.
  rewrite !andb_true_iff, negb_true_iff in Hb. destruct Hb as (_ & Hret).
  assert (Hfirst : forall j, (0 < j < Z.to_nat (n ms))%nat ->
            v (snd (advance_seq j ms)) <> v ms).
  { intros j Hj. apply (returns_within_sound _ _ _ Hret). lia. }
  pose proof (orbit_distinct ms (Z.to_nat (n ms)) Hm Hn Htop Hv Hfirst) as Hd.
  split; [exact Hfirst|]. split; [exact Hd|].
  assert (Hpos : 0 < v ms).
  { rewrite <- Hav, Ha. apply Z.pow_pos_nonneg; lia. }
  set (k := Z.to_nat (n ms)) in *.
  set (states := map (fun j => v (snd (advance_seq j ms))) (seq 0 k)).
  set (values := map Z.of_nat (seq 1 k)).
  assert (Hnd : NoDup states).
  { apply NoDup_map_NoDup_ForallPairs; [|apply seq_NoDup].
    intros i j Hi Hj E. apply in_seq in Hi, Hj.
    destruct (Nat.lt_trichotomy i j) as [Hlt | [He | Hgt]]; [|exact He|].
    - exfalso. apply (Hd i j); [lia | exact E].
    - exfalso. apply (Hd j i); [lia | now rewrite E]. }
  assert (Hincl : incl states values).
  { intros x Hx. apply in_map_iff in Hx as (j & <- & Hj).
    pose proof (advance_seq_nonzero j ms Hm Hn Htop ltac:(lia)) as Hr.
    apply in_map_iff. exists (Z.to_nat (v (snd (advance_seq j ms)))).
    split; [lia|]. apply in_seq. unfold k. lia. }
  assert (Hlen : (length values <= length states)%nat)
    by (unfold values, states; rewrite !length_map, !length_seq; lia).
  pose proof (NoDup_length_incl Hnd Hlen Hincl) as Hall.
  intros x Hx.
  assert (Hin : In x values).
  { apply in_map_iff. exists (Z.to_nat x). split; [lia|].
    apply in_seq. unfold k. lia. }
  apply Hall, in_map_iff in Hin as (j & Hj & Hjk).
  exists j. apply in_seq in Hjk. split; [lia | exact Hj].
Qed.

Lemma default_visits_every_state_witness :
  exists j, (j < Z.to_nat 15)%nat /\
    v (snd (advance_seq j
              {| m := 4; g := 9; a := 8; n := 15; v := 8; b := 0 |})) = 6.
Proof.
  apply (proj2 (proj2 (default_visits_every_state 4
                  {| m := 4; g := 9; a := 8; n := 15; v := 8; b := 0 |}
                  eq_refl))).
  simpl. lia.
Defined.

(** ** Reset after any use *)

(** X20. Whatever was done to a constructed generator, advances, symbols,
    resets or [set_state] with any argument, a reset brings back the
    stream of the construction: the next N advances return the first N
    bits the fresh generator returns. *)
Theorem reset_after_any_operations (ms0 : msequence_s)
  (ops : list operation) (N : nat) :
  constructed ms0 ->
  fst (advance_seq N (msequence_reset (run ops ms0)))
  = fst (advance_seq N ms0).
Proof.
  intros Hc. destruct (constructed_facts ms0 Hc) as (_ & _ & _ & Ha & _).
  destruct (run_fields ops ms0) as (_ & Eg & Ea & En).
  apply advance_seq_ext; unfold msequence_reset; cbn [v g n]; congruence.
Qed.

Lemma reset_after_any_operations_witness :
  fst (advance_seq 5 (msequence_reset
         (run [SetState 0; Advance; GenerateSymbol 9; SetState 77]
            {| m := 4; g := 9; a := 8; n := 15; v := 8; b := 0 |})))
  = fst (advance_seq 5 {| m := 4; g := 9; a := 8; n := 15; v := 8; b := 0 |}).
Proof.
  apply (reset_after_any_operations
           {| m := 4; g := 9; a := 8; n := 15; v := 8; b := 0 |}
           [SetState 0; Advance; GenerateSymbol 9; SetState 77] 5
           default_4_constructed).
Defined.
